(** * EvalPlus evaluation harness: a shallow embedding and its properties

    The development follows the two Python sources of the repository:

    - [evalplus/evaluate.py]: the oracle cache ([get_groundtruth]), the
      correctness checker ([check_correctness]) and the evaluation driver
      ([evaluate_humaneval]) with its dispatcher, result store and pass@k
      summary;
    - [eval_result/data_handler.py]: the failed-case extractor and the
      failure-set differ.

    Python values are modelled as the code uses them: unbounded integers as
    [Z] (counters that only count up from zero as [nat]), [str] as [string],
    a [dict] as an insertion-ordered association list, [Counter] and [set]
    as [gmap] and [gset], exceptions as an error result, and the file
    system, the clock, standard input and the observable actions of a run
    as an explicit world threaded through the program. *)

From Stdlib Require Import ZArith Lia Ascii String.
From stdpp Require Import base option list sorting gmap sets strings pretty.

(** * Python primitives *)

Module Py.

(** The exceptions the embedded code can raise. *)
Inductive exn : Type :=
| KeyError
| IndexError
| ValueError
| AttributeError
| TypeError
| NameError
| AssertionError (msg : string)
| FileNotFoundError
| IsADirectoryError
| NotADirectoryError
| EOFError
| UnpicklingError
| JSONDecodeError
| OutOfFuel. (* not a Python exception: a bounded loop of the model ran out of steps *)

Inductive result (A : Type) : Type :=
| Ok (a : A)
| Raise (e : exn).
Arguments Ok {A} a.
Arguments Raise {A} e.

Definition is_ok {A} (r : result A) : bool :=
  match r with Ok _ => true | Raise _ => false end.

Definition rbind {A B} (r : result A) (k : A → result B) : result B :=
  match r with Ok a => k a | Raise e => Raise e end.

Definition of_option {A} (e : exn) (o : option A) : result A :=
  match o with Some a => Ok a | None => Raise e end.

(** [for x in l: acc = step acc x], stopping at the first exception. *)
Fixpoint rfold {A S} (step : S → A → result S) (acc : S) (l : list A) : result S :=
  match l with
  | [] => Ok acc
  | x :: l' => rbind (step acc x) (λ acc', rfold step acc' l')
  end.

(** [[f x for x in l]], stopping at the first exception. *)
Fixpoint rmap {A B} (f : A → result B) (l : list A) : result (list B) :=
  match l with
  | [] => Ok []
  | x :: l' => rbind (f x) (λ y, rbind (rmap f l') (λ ys, Ok (y :: ys)))
  end.

(** ** Insertion-ordered dictionaries with [str] keys *)

Definition dict (V : Type) : Type := list (string * V).

Fixpoint dict_get {V} (k : string) (d : dict V) : option V :=
  match d with
  | [] => None
  | (k', v) :: d' => if decide (k = k') then Some v else dict_get k d'
  end.

(** [d[k] = v]: an existing key keeps its position, a new one goes last. *)
Fixpoint dict_set {V} (k : string) (v : V) (d : dict V) : dict V :=
  match d with
  | [] => [(k, v)]
  | (k', v') :: d' =>
      if decide (k = k') then (k, v) :: d' else (k', v') :: dict_set k v d'
  end.

Definition dict_keys {V} (d : dict V) : list string := d.*1.
Definition dict_values {V} (d : dict V) : list V := d.*2.
Definition dict_len {V} (d : dict V) : nat := length d.

(** A Python dict never holds a key twice. *)
Definition dict_wf {V} (d : dict V) : Prop := NoDup (dict_keys d).

(** [d[k]], raising [KeyError] on a missing key. *)
Definition dict_item {V} (k : string) (d : dict V) : result V :=
  of_option KeyError (dict_get k d).

(** ** [list.sort(key=...)]: a stable sort on a natural-number key *)

Fixpoint insert_by_key {A} (key : A → nat) (x : A) (l : list A) : list A :=
  match l with
  | [] => [x]
  | y :: l' =>
      if decide (key x ≤ key y) then x :: y :: l'
      else y :: insert_by_key key x l'
  end.

Definition list_sort {A} (key : A → nat) (l : list A) : list A :=
  foldr (insert_by_key key) [] l.

(** ** Strings *)

Fixpoint str_endswith_rev (rsuffix rs : string) : bool :=
  match rsuffix, rs with
  | EmptyString, _ => true
  | String a r, String b r' => if decide (a = b) then str_endswith_rev r r' else false
  | String _ _, EmptyString => false
  end.

(** [s.endswith(suffix)] *)
Definition str_endswith (s suffix : string) : bool :=
  str_endswith_rev (String.rev suffix) (String.rev s).

(** [s.startswith(p)] *)
Fixpoint str_startswith (s p : string) : bool :=
  match p, s with
  | EmptyString, _ => true
  | String a p', String b s' => if decide (a = b) then str_startswith s' p' else false
  | String _ _, EmptyString => false
  end.

(** [s.replace(old, new)] for a non-empty [old]: every non-overlapping
    occurrence, from the left.  [skip] counts the characters of a matched
    occurrence that are still to be dropped. *)
Fixpoint str_replace_go (old new : string) (skip : nat) (s : string) : string :=
  match s with
  | EmptyString => EmptyString
  | String c s' =>
      match skip with
      | S n => str_replace_go old new n s'
      | O =>
          if str_startswith s old
          then new +:+ str_replace_go old new (String.length old - 1) s'
          else String c (str_replace_go old new 0 s')
      end
  end.

Definition str_replace (s old new : string) : string :=
  str_replace_go old new 0 s.

Definition ascii_lower (c : ascii) : ascii :=
  let n := Ascii.nat_of_ascii c in
  if decide (65 ≤ n ≤ 90) then Ascii.ascii_of_nat (n + 32) else c.

(** [s.lower()] on ASCII text *)
Fixpoint str_lower (s : string) : string :=
  match s with
  | EmptyString => EmptyString
  | String c s' => String (ascii_lower c) (str_lower s')
  end.

(** The characters [str.strip()] removes, on ASCII text. *)
Definition is_whitespace (c : ascii) : bool :=
  let n := Ascii.nat_of_ascii c in
  bool_decide (9 ≤ n ≤ 13 ∨ 28 ≤ n ≤ 32).

Fixpoint str_lstrip (s : string) : string :=
  match s with
  | EmptyString => EmptyString
  | String c s' => if is_whitespace c then str_lstrip s' else s
  end.

(** [s.strip()] *)
Definition str_strip (s : string) : string :=
  String.rev (str_lstrip (String.rev (str_lstrip s))).

(** [os.path.join(a, b)] on POSIX *)
Definition os_path_join (a b : string) : string :=
  if str_startswith b "/" then b
  else if decide (a = "") then b
  else if str_endswith a "/" then a +:+ b
  else a +:+ "/" +:+ b.

(** ** The file system

    A flat name space from paths to nodes.  Parent directories are not
    tracked: creating a file at a free path always succeeds. *)

Inductive node (C : Type) : Type :=
| File (content : C)
| Dir.
Arguments File {C} content.
Arguments Dir {C}.

Section fs.
Context {C : Type}.
Implicit Types (fs : gmap string (node C)) (path : string).

(** [os.path.exists], [os.path.isfile], [os.path.isdir] *)
Definition os_path_exists fs path : bool :=
  match fs !! path with Some _ => true | None => false end.
Definition os_path_isfile fs path : bool :=
  match fs !! path with Some (File _) => true | _ => false end.
Definition os_path_isdir fs path : bool :=
  match fs !! path with Some Dir => true | _ => false end.

(** [open(path)] for reading, returning the whole content. *)
Definition read_file fs path : result C :=
  match fs !! path with
  | Some (File c) => Ok c
  | Some Dir => Raise IsADirectoryError
  | None => Raise FileNotFoundError
  end.

(** [open(path, "w")] followed by writing [c] and closing. *)
Definition write_file fs path (c : C) : result (gmap string (node C)) :=
  match fs !! path with
  | Some Dir => Raise IsADirectoryError
  | _ => Ok (<[path := File c]> fs)
  end.

(** [os.rename(src, dst)] on POSIX. *)
Definition os_rename fs (src dst : string) : result (gmap string (node C)) :=
  match fs !! src with
  | None => Raise FileNotFoundError
  | Some n =>
      if decide (src = dst) then Ok fs
      else match n, fs !! dst with
           | File _, Some Dir => Raise IsADirectoryError
           | Dir, Some (File _) => Raise NotADirectoryError
           | _, _ => Ok (<[dst := n]> (delete src fs))
           end
  end.
End fs.

End Py.

Import Py.

#[global] Instance result_ret : MRet result := @Ok.
#[global] Instance result_bind : MBind result := λ A B k r, rbind r k.

(** * evalplus/evaluate.py *)

Module Evaluate.

Section evaluate.
(** The values the execution collaborator works on are opaque to the
    evaluator: argument suites, expected outputs, timings, the numeric
    tolerance and the floating-point numbers of the summary.  [Clock] is
    the state of the wall clock. *)
Context {Inputs Outputs Time Atol Float Clock : Type}.

(** ** Data *)

(** [Result = Tuple[str, List[bool]]] *)
Definition Result : Type := string * list bool.

Record Problem := {
  task_id : string;
  prompt : string;
  canonical_solution : string;
  base_input : Inputs;
  plus_input : Inputs;
  entry_point : string;
  atol : Atol;
}.

(** The per-problem entry of [expected_output]. *)
Record Oracle := {
  o_base : Outputs;
  o_base_time : Time;
  o_plus : Outputs;
  o_plus_time : Time;
}.

(** A record yielded by [load_solutions]; ["solution"] and
    ["completion"] are optional keys. *)
Record Sample := {
  s_task_id : string;
  s_solution : option string;
  s_completion : option string;
  s_identifier : string;
}.

(** The dict returned by [check_correctness]; ["plus"] is set only when
    the run is not base-only. *)
Record CheckResult := {
  r_completion_id : nat;
  r_task_id : string;
  r_identifier : string;
  r_base : Result;
  r_plus : option Result;
}.

(** An entry of [results["eval"]]. *)
Record TaskResult := {
  nfiles : Z;
  t_base : list Result;
  t_plus : list Result;
}.

(** The result document. *)
Record Results := {
  res_date : string;
  res_hash : string;
  res_eval : dict TaskResult;
}.

(** The command-line flags [evaluate_humaneval] reads. *)
Record Flags := {
  parallel : option Z;
  samples : string;
  base_only : bool;
  i_just_wanna_run : bool;
  full : bool;
}.

(** The argument tuple of one [executor.submit(check_correctness, *args)]. *)
Record Job := {
  j_completion_id : nat;
  j_problem : Problem;
  j_solution : string;
  j_expected_output : Oracle;
  j_base_only : bool;
  j_fast_check : bool;
  j_identifier : string;
}.

(** What a file holds: text, a pickled oracle mapping, or a JSON result
    document.  [pickle.load] and [json.load] give back what
    [pickle.dump] and [json.dump] stored. *)
Inductive stored : Type :=
| Text (s : string)
| Pickled (o : dict Oracle)
| Json (r : Results).

(** What [print] shows. *)
Inductive printed : Type :=
| PStr (s : string)
| PElapsed
| PPassAtK (d : dict Float).

(** The observable actions of a run, in order. *)
Inductive event : Type :=
| Print (p : printed)
| TrustedExec (code : string) (inputs : Inputs) (entry : string)
| Submit (job : Job).

Record world := {
  fs : gmap string (node stored);
  clock : Clock;
  stdin : list string;
  trace : list event;
}.

(** ** Collaborators that are not part of this file *)

Variable CACHE_DIR : string.
Variable SUCCESS : string.
(** [trusted_exec(code, inputs, entry_point, record_time=True)] *)
Variable trusted_exec : string → Inputs → string → Clock → (Outputs * Time) * Clock.
(** [untrusted_check(code, inputs, entry_point, expected, atol, ref_time, fast_check)] *)
Variable untrusted_check :
  string → Inputs → string → Outputs → Atol → Time → bool → Result.
Variable estimate_pass_at_k : list Z → list Z → Z → list Float.
Variable mean : list Float → Float.
Variable compatible_eval_result : Results → Results.
Variable get_human_eval_plus : dict Problem.
Variable get_human_eval_plus_hash : string.
Variable load_solutions : gmap string (node stored) → string → result (list Sample).
Variable cpu_count : Z.
(** [datetime.now().strftime("%Y-%m-%d %H:%M")] *)
Variable strftime_now : Clock → string.

(** ** Programs: state and exceptions *)

Definition M (A : Type) : Type := world → result A * world.

Definition ret {A} (a : A) : M A := λ w, (Ok a, w).
Definition bind {A B} (m : M A) (k : A → M B) : M B :=
  λ w, match m w with
       | (Ok a, w') => k a w'
       | (Raise e, w') => (Raise e, w')
       end.
Definition lift {A} (r : result A) : M A := λ w, (r, w).
Definition get_fs : M (gmap string (node stored)) := λ w, (Ok (fs w), w).
Definition put_fs (f : gmap string (node stored)) : M unit :=
  λ w, (Ok (), {| fs := f; clock := clock w; stdin := stdin w; trace := trace w |}).
Definition emit (e : event) : M unit :=
  λ w, (Ok (), {| fs := fs w; clock := clock w; stdin := stdin w;
                  trace := trace w ++ [e] |}).
Definition print (p : printed) : M unit := emit (Print p).

#[local] Instance M_ret : MRet M := @ret.
#[local] Instance M_bind : MBind M := λ A B k m, bind m k.

(** [for x in l: acc = step acc x] with effects. *)
Fixpoint mfold {A S} (step : S → A → M S) (acc : S) (l : list A) : M S :=
  match l with
  | [] => ret acc
  | x :: l' => bind (step acc x) (λ acc', mfold step acc' l')
  end.

(** ** [get_groundtruth] (lines 35-66) *)

(** One call of [trusted_exec(..., record_time=True)]: it runs on the
    clock and is recorded in the trace. *)
Definition call_trusted_exec (code : string) (inputs : Inputs) (entry : string)
    : M (Outputs * Time) :=
  λ w, let '(r, c) := trusted_exec code inputs entry (clock w) in
       (Ok r, {| fs := fs w; clock := c; stdin := stdin w;
                 trace := trace w ++ [TrustedExec code inputs entry] |}).

(** [with open(path, "rb") as f: return pickle.load(f)] *)
Definition pickle_load (path : string) : M (dict Oracle) :=
  f ← get_fs;
  c ← lift (read_file f path);
  match c with
  | Pickled o => ret o
  | _ => lift (Raise UnpicklingError)
  end.

(** [with open(path, "wb") as f: pickle.dump(o, f)] *)
Definition pickle_dump (o : dict Oracle) (path : string) : M unit :=
  f ← get_fs;
  f' ← lift (write_file f path (Pickled o));
  put_fs f'.

(** The body of the loop over [problems.items()]. *)
Definition groundtruth_step (expected_output : dict Oracle)
    (item : string * Problem) : M (dict Oracle) :=
  let '(task_id, problem) := item in
  b ← call_trusted_exec (prompt problem +:+ canonical_solution problem)
        (base_input problem) (entry_point problem);
  p ← call_trusted_exec (prompt problem +:+ canonical_solution problem)
        (plus_input problem) (entry_point problem);
  ret (dict_set task_id
         {| o_base := b.1; o_base_time := b.2; o_plus := p.1; o_plus_time := p.2 |}
         expected_output).

Definition cache_file_of (hashcode : string) : string :=
  os_path_join CACHE_DIR (hashcode +:+ ".pkl").

Definition get_groundtruth (problems : dict Problem) (hashcode : string)
    : M (dict Oracle) :=
  let cache_file := cache_file_of hashcode in
  f ← get_fs;
  if os_path_exists f cache_file then
    print (PStr ("Load from " +:+ cache_file));;
    pickle_load cache_file
  else
    print (PStr "Computing expected output...");;
    expected_output ← mfold groundtruth_step [] problems;
    print PElapsed;;
    pickle_dump expected_output cache_file;;
    ret expected_output.

(** ** [check_correctness] (lines 69-104) *)

Definition check_correctness (completion_id : nat) (problem : Problem)
    (solution : string) (expected_output : Oracle)
    (base_only fast_check : bool) (identifier : string) : CheckResult :=
  {| r_completion_id := completion_id;
     r_task_id := task_id problem;
     r_identifier := identifier;
     r_base :=
       untrusted_check solution (base_input problem) (entry_point problem)
         (o_base expected_output) (atol problem) (o_base_time expected_output)
         fast_check;
     r_plus :=
       if base_only then None
       else Some (untrusted_check solution (plus_input problem)
                    (entry_point problem) (o_plus expected_output)
                    (atol problem) (o_plus_time expected_output) fast_check) |}.

(** [future.result()] of a submitted job. *)
Definition future_result (j : Job) : CheckResult :=
  check_correctness (j_completion_id j) (j_problem j) (j_solution j)
    (j_expected_output j) (j_base_only j) (j_fast_check j) (j_identifier j).

(** ** The dispatcher of [evaluate_humaneval] (lines 137-194) *)

(** The local variables of the submission loop. *)
Record dispatch := {
  futures : list Job;
  completion_id : gmap string nat;       (* Counter() *)
  n_samples : nat;
  remainings : gset string;
}.

Definition dispatch_init : dispatch :=
  {| futures := []; completion_id := ∅; n_samples := 0; remainings := ∅ |}.

(** [completion_id[task_id]] on a [Counter]: a missing key counts 0. *)
Definition counter_get (c : gmap string nat) (k : string) : nat :=
  default 0 (c !! k).

(** One iteration of [for sample in load_solutions(flags.samples)]
    up to the call of [executor.submit] (lines 146-164). *)
Definition submit_step (problems : dict Problem) (expected_output : dict Oracle)
    (flags : Flags) (st : dispatch) (sample : Sample) : result (dispatch * Job) :=
  let task_id := s_task_id sample in
  solution ← match s_solution sample with
             | Some s => Ok s
             | None =>
                 p ← dict_item task_id problems;
                 c ← of_option KeyError (s_completion sample);
                 Ok (prompt p +:+ c)
             end;
  let remainings' := {[ s_identifier sample ]} ∪ remainings st in
  let cid := counter_get (completion_id st) task_id in
  p ← dict_item task_id problems;
  eo ← dict_item task_id expected_output;
  let job := {| j_completion_id := cid; j_problem := p; j_solution := solution;
                j_expected_output := eo; j_base_only := base_only flags;
                j_fast_check := negb (full flags);
                j_identifier := s_identifier sample |} in
  Ok ({| futures := futures st ++ [job];
         completion_id := <[task_id := S cid]> (completion_id st);
         n_samples := S (n_samples st);
         remainings := remainings' |}, job).

Definition submit_sample (problems : dict Problem) (expected_output : dict Oracle)
    (flags : Flags) (st : dispatch) (sample : Sample) : M dispatch :=
  '(st', job) ← lift (submit_step problems expected_output flags st sample);
  emit (Submit job);;
  ret st'.

(** The two assertions after the loop (lines 166-167). *)
Definition check_submitted (problems : dict Problem) (st : dispatch) : result unit :=
  if decide (n_samples st = size (remainings st)) then
    if decide (size (completion_id st) = dict_len problems) then Ok ()
    else Raise (AssertionError "Missing problems in samples")
  else Raise (AssertionError "Missing problems in unfinished").

(** One iteration of [for future in as_completed(futures)] (lines 181-183);
    [eval_results] is a [defaultdict(list)]. *)
Definition collect_step (acc : gset string * dict (list CheckResult)) (future : Job)
    : result (gset string * dict (list CheckResult)) :=
  let '(remainings, eval_results) := acc in
  let result := future_result future in
  if decide (r_identifier result ∈ remainings) then
    Ok (remainings ∖ {[ r_identifier result ]},
        dict_set (r_task_id result)
          (default [] (dict_get (r_task_id result) eval_results) ++ [result])
          eval_results)
  else Raise KeyError.

Definition collect (st : dispatch) (completed : list Job)
    : result (gset string * dict (list CheckResult)) :=
  rfold collect_step (remainings st, []) completed.

(** The body of the loop over [eval_results.items()] (lines 186-194). *)
Definition aggregate_step (flags : Flags) (results_eval : dict TaskResult)
    (item : string * list CheckResult) : result (dict TaskResult) :=
  let '(task_id, task_results) := item in
  let task_results := list_sort r_completion_id task_results in
  plus ← (if negb (base_only flags)
          then rmap (λ x, of_option KeyError (r_plus x)) task_results
          else Ok []);
  Ok (dict_set task_id
        {| nfiles := Z.of_nat (length task_results);
           t_base := r_base <$> task_results;
           t_plus := plus |}
        results_eval).

Definition aggregate (flags : Flags) (eval_results : dict (list CheckResult))
    : result (dict TaskResult) :=
  rfold (aggregate_step flags) [] eval_results.

(** ** The pass@k summary (lines 214-248) *)

(** [sum([r[0] == SUCCESS for r in res["base"]])] *)
Definition base_correct_of (res : TaskResult) : Z :=
  Z.of_nat (length (filter (λ r : Result, r.1 = SUCCESS) (t_base res))).

(** [res["plus"][i][0] == res["base"][i][0] == SUCCESS]; each subscript
    raises [IndexError] out of range. *)
Definition both_success (res : TaskResult) (i : nat) : result bool :=
  p ← of_option IndexError (t_plus res !! i);
  b ← of_option IndexError (t_base res !! i);
  Ok (bool_decide (p.1 = b.1) && bool_decide (b.1 = SUCCESS)).

(** [sum([... for i in range(len(res["plus"]))])] *)
Definition new_correct_of (res : TaskResult) : result Z :=
  flags ← rmap (both_success res) (seq 0 (length (t_plus res)));
  Ok (Z.of_nat (length (filter (λ b : bool, b = true) flags))).

(** The body of [for res in results["eval"].values()]. *)
Definition correct_step (acc : list Z * list Z) (res : TaskResult)
    : result (list Z * list Z) :=
  let '(base_correct, new_correct) := acc in
  let bc := base_correct_of res in
  match t_plus res with
  | [] => Ok (base_correct ++ [bc], new_correct)
  | _ :: _ =>
      nc ← new_correct_of res;
      Ok (base_correct ++ [bc], new_correct ++ [nc])
  end.

(** [total.min()]: numpy raises [ValueError] on an empty array. *)
Definition np_min (total : list Z) : result Z :=
  match total with
  | [] => Raise ValueError
  | x :: l => Ok (foldr Z.min x l)
  end.

(** [(total >= k).all()] *)
Definition np_all_ge (total : list Z) (k : Z) : bool :=
  forallb (λ n, bool_decide (k ≤ n)%Z) total.

(** [f"pass@{k}"] *)
Definition pass_key (k : Z) : string := "pass@" +:+ pretty k.

Definition ks : list Z := [1; 10; 100]%Z.

(** The first dict comprehension (lines 233-237). *)
Definition base_pass_at_k (total base_correct : list Z) : result (dict Float) :=
  rfold (λ (d : dict Float) (k : Z),
           m ← np_min total;
           Ok (if bool_decide (k ≤ m)%Z
               then dict_set (pass_key k)
                      (mean (estimate_pass_at_k total base_correct k)) d
               else d)) [] ks.

(** The second dict comprehension (lines 243-247). *)
Definition plus_pass_at_k (total new_correct : list Z) : dict Float :=
  foldl (λ (d : dict Float) (k : Z),
           if np_all_ge total k
           then dict_set (pass_key k)
                  (mean (estimate_pass_at_k total new_correct k)) d
           else d) [] ks.

Definition report_pass_at_k (results : Results) : M unit :=
  let values := dict_values (res_eval results) in
  let total := nfiles <$> values in
  '(base_correct, new_correct) ← lift (rfold correct_step ([], []) values);
  pass_at_k ← lift (base_pass_at_k total base_correct);
  print (PStr "Base");;
  print (PPassAtK pass_at_k);;
  match new_correct with
  | [] => ret ()
  | _ :: _ =>
      print (PStr "Base + Extra");;
      print (PPassAtK (plus_pass_at_k total new_correct))
  end.

(** ** [evaluate_humaneval] (lines 107-248) *)

(** Lines 108-111. *)
Definition resolve_n_workers (flags : Flags) : Z :=
  match parallel flags with
  | None => Z.max 1 (cpu_count / 2)
  | Some n => n
  end.

(** Lines 113-117. *)
Definition derive_result_path (flags : Flags) (f : gmap string (node stored))
    : result string :=
  if os_path_isdir f (samples flags) then
    Ok (os_path_join (samples flags) "eval_results.json")
  else if str_endswith (samples flags) ".jsonl" then
    Ok (str_replace (samples flags) ".jsonl" "_eval_results.json")
  else Raise (AssertionError "").

(** [with open(path, "r") as f: json.load(f)] *)
Definition json_load (path : string) : M Results :=
  f ← get_fs;
  c ← lift (read_file f path);
  match c with
  | Json r => ret r
  | _ => lift (Raise JSONDecodeError)
  end.

(** [with open(path, "w") as f: json.dump(results, f)] *)
Definition json_dump (results : Results) (path : string) : M unit :=
  f ← get_fs;
  f' ← lift (write_file f path (Json results));
  put_fs f'.

(** [ProcessPoolExecutor(max_workers=n)] rejects a count below one. *)
Definition process_pool_executor (n_workers : Z) : result unit :=
  if decide (n_workers ≤ 0)%Z then Raise ValueError else Ok ().

(** The [else] branch (lines 126-194).  [as_completed] is the order in
    which the pool hands back the submitted futures. *)
Definition compute_results (as_completed : list Job → list Job)
    (flags : Flags) (n_workers : Z) : M Results :=
  let problems := get_human_eval_plus in
  let problem_hash := get_human_eval_plus_hash in
  expected_output ← get_groundtruth problems problem_hash;
  date ← (λ w, (Ok (strftime_now (clock w)), w));
  lift (process_pool_executor n_workers);;
  print (PStr "Reading samples...");;
  f ← get_fs;
  solutions ← lift (load_solutions f (samples flags));
  st ← mfold (submit_sample problems expected_output flags) dispatch_init solutions;
  lift (check_submitted problems st);;
  '(_, eval_results) ← lift (collect st (as_completed (futures st)));
  results_eval ← lift (aggregate flags eval_results);
  ret {| res_date := date; res_hash := problem_hash; res_eval := results_eval |}.

Definition prompt_text (result_path : string) : string :=
  result_path +:+ " already exists. Press [Y/N] to overwrite or exit...".

(** [while decision.lower() not in ["y", "n"]: print(...); decision = input()]
    on the lines still on standard input: the decision reached (or
    [EOFError]), the lines left, and the number of prompts shown. *)
Fixpoint prompt_loop (lines : list string) (decision : string) {struct lines}
    : result string * list string * nat :=
  if bool_decide (str_lower decision ∈ ["y"; "n"]) then (Ok decision, lines, 0)
  else match lines with
       | [] => (Raise EOFError, [], 1)
       | l :: rest =>
           let '(r, rest', n) := prompt_loop rest l in (r, rest', S n)
       end.

Definition ask_decision (result_path : string) : M string :=
  λ w, let '(r, rest, n) := prompt_loop (stdin w) "" in
       (r, {| fs := fs w; clock := clock w; stdin := rest;
              trace := trace w ++ replicate n (Print (PStr (prompt_text result_path))) |}).

(** [while os.path.isfile(new_path): new_path += ".bak"] *)
Fixpoint backup_loop (fuel : nat) (f : gmap string (node stored)) (new_path : string)
    : option string :=
  match fuel with
  | O => None
  | S n =>
      if os_path_isfile f new_path then backup_loop n f (new_path +:+ ".bak")
      else Some new_path
  end.

(** The loop started at [result_path + ".bak"]; it stops within as many
    steps as the file system has entries (see [backup_path_total]). *)
Definition backup_path (f : gmap string (node stored)) (result_path : string)
    : option string :=
  backup_loop (S (size f)) f (result_path +:+ ".bak").

(** Lines 202-208. *)
Definition backup (result_path : string) : M unit :=
  f ← get_fs;
  new_path ← lift (of_option OutOfFuel (backup_path f result_path));
  f' ← lift (os_rename f result_path new_path);
  put_fs f';;
  print (PStr ("Backup " +:+ result_path +:+ " to " +:+ new_path)).

(** Lines 196-208. *)
Definition overwrite_prompt (flags : Flags) (result_path : string) : M unit :=
  f ← get_fs;
  if os_path_isfile f result_path && i_just_wanna_run flags then
    decision ← ask_decision result_path;
    if decide (str_lower decision = "y") then backup result_path else ret ()
  else ret ().

(** Lines 210-212. *)
Definition persist (results : Results) (result_path : string) : M unit :=
  f ← get_fs;
  if negb (os_path_isfile f result_path) then json_dump results result_path
  else ret ().

Definition evaluate_humaneval (as_completed : list Job → list Job) (flags : Flags)
    : M unit :=
  let n_workers := resolve_n_workers flags in
  f ← get_fs;
  result_path ← lift (derive_result_path flags f);
  results ←
    (if os_path_isfile f result_path && negb (i_just_wanna_run flags) then
       print (PStr ("Load from " +:+ result_path));;
       results ← json_load result_path;
       ret (compatible_eval_result results)
     else compute_results as_completed flags n_workers);
  overwrite_prompt flags result_path;;
  persist results result_path;;
  report_pass_at_k results.

(** * Properties *)

(** ** Unfolding programs *)

Lemma bind_ok {A B} (m : M A) (k : A → M B) w a w' :
  m w = (Ok a, w') → (m ≫= k) w = k a w'.
Proof. intros H. unfold mbind, M_bind, bind. by rewrite H. Qed.

Lemma bind_raise {A B} (m : M A) (k : A → M B) w e w' :
  m w = (Raise e, w') → (m ≫= k) w = (Raise e, w').
Proof. intros H. unfold mbind, M_bind, bind. by rewrite H. Qed.

(** ** The pass@k summary *)

Lemma np_min_ge (total : list Z) (m k : Z) :
  np_min total = Ok m → (k ≤ m)%Z ↔ Forall (λ n, (k ≤ n)%Z) total.
Proof.
  destruct total as [|x l]; [done|]. simpl. intros [= <-].
  induction l as [|y l IH]; simpl.
  - split; [by repeat constructor | by inversion 1].
  - rewrite Z.min_glb_iff, IH, !Forall_cons. tauto.
Qed.

Lemma np_all_ge_Forall (total : list Z) (k : Z) :
  np_all_ge total k = true ↔ Forall (λ n, (k ≤ n)%Z) total.
Proof.
  unfold np_all_ge. rewrite forallb_forall, Forall_forall.
  setoid_rewrite bool_decide_eq_true. by setoid_rewrite list_elem_of_In.
Qed.

Lemma rmap_ext {A B} (f g : A → result B) (l : list A) :
  (∀ x, f x = g x) → rmap f l = rmap g l.
Proof. intros E. induction l as [|x l IH]; simpl; [done|]. by rewrite E, IH. Qed.

Lemma rmap_fmap {A B C} (f : B → result C) (g : A → B) (l : list A) :
  rmap f (g <$> l) = rmap (f ∘ g) l.
Proof. induction l as [|x l IH]; csimpl; [done|]. by rewrite IH. Qed.

Lemma rmap_total {A B} (f : A → B) (l : list A) :
  rmap (λ x, Ok (f x)) l = Ok (f <$> l).
Proof. induction l as [|x l IH]; csimpl; [done|]. by rewrite IH. Qed.

(** A task entry whose plus list is not longer than its base list:
    every subscript of the second pass is in range. *)
Definition plus_in_range (res : TaskResult) : Prop :=
  length (t_plus res) ≤ length (t_base res).

(** The success predicate of the second pass, as the specification words
    it: base and plus status at the same index are both [SUCCESS]. *)
Definition both_pass (pb : Result * Result) : Prop :=
  pb.1.1 = SUCCESS ∧ pb.2.1 = SUCCESS.

Definition both_count (res : TaskResult) : Z :=
  Z.of_nat (length (filter both_pass (zip (t_plus res) (t_base res)))).

Definition both_flag (pb : Result * Result) : bool :=
  bool_decide (pb.1.1 = pb.2.1) && bool_decide (pb.2.1 = SUCCESS).

Lemma both_flag_pass pb : both_flag pb = true ↔ both_pass pb.
Proof.
  unfold both_flag, both_pass. rewrite andb_true_iff, !bool_decide_eq_true.
  split; intros [-> ?]; by split.
Qed.

Lemma both_success_zip (nf : Z) (p b : list Result) :
  length p ≤ length b →
  rmap (both_success {| nfiles := nf; t_base := b; t_plus := p |})
       (seq 0 (length p)) = Ok (both_flag <$> zip p b).
Proof.
  revert b. induction p as [|x p IH]; intros [|y b] Hlen; simpl in *; try done; try lia.
  rewrite <-fmap_S_seq, rmap_fmap.
  rewrite (rmap_ext _ (both_success {| nfiles := nf; t_base := b; t_plus := p |}))
    by done.
  rewrite IH by lia. done.
Qed.

Lemma length_filter_flags {A} (f : A → bool) (P : A → Prop) `{!∀ x, Decision (P x)}
    (l : list A) :
  (∀ x, f x = true ↔ P x) →
  length (filter (λ b : bool, b = true) (f <$> l)) = length (filter P l).
Proof.
  intros E. induction l as [|x l IH]; [done|].
  rewrite fmap_cons, !filter_cons.
  destruct (decide (f x = true)) as [Hf|Hf], (decide (P x)) as [HP|HP]; simpl;
    rewrite ?IH; try done; by apply E in Hf || apply E in HP.
Qed.

Lemma new_correct_of_ok (res : TaskResult) :
  plus_in_range res → new_correct_of res = Ok (both_count res).
Proof.
  destruct res as [nf b p]. unfold plus_in_range, new_correct_of, both_count.
  simpl. intros Hlen. rewrite both_success_zip by done. simpl.
  by rewrite (length_filter_flags both_flag both_pass) by apply both_flag_pass.
Qed.

(** Python truthiness of a list. *)
Definition truthy {A} (l : list A) : bool :=
  match l with [] => false | _ :: _ => true end.

Lemma correct_fold (values : list TaskResult) (bc nc : list Z) :
  Forall plus_in_range values →
  rfold correct_step (bc, nc) values =
    Ok (bc ++ (base_correct_of <$> values),
        nc ++ (both_count <$> filter (λ res, truthy (t_plus res)) values)).
Proof.
  intros Hwf. revert bc nc.
  induction Hwf as [|res values Hres _ IH]; intros bc nc; simpl.
  - by rewrite !app_nil_r.
  - rewrite filter_cons. destruct (t_plus res) as [|x p] eqn:Hp; simpl.
    + rewrite IH. by rewrite <-app_assoc.
    + rewrite new_correct_of_ok by done. simpl.
      rewrite IH. by rewrite <-!app_assoc.
Qed.

(** The world after more events. *)
Definition add_trace (w : world) (evs : list event) : world :=
  {| fs := fs w; clock := clock w; stdin := stdin w; trace := trace w ++ evs |}.

Lemma add_trace_nil w : add_trace w [] = w.
Proof. destruct w. unfold add_trace. simpl. by rewrite app_nil_r. Qed.

Lemma add_trace_app w evs1 evs2 :
  add_trace (add_trace w evs1) evs2 = add_trace w (evs1 ++ evs2).
Proof. unfold add_trace. simpl. by rewrite app_assoc. Qed.

Lemma emit_add_trace e w : emit e w = (Ok (), add_trace w [e]).
Proof. done. Qed.

(** The dictionary of a pass, for a given test of which [k] to include. *)
Definition pass_at_k_dict (include : Z → bool) (total correct : list Z) : dict Float :=
  foldl (λ (d : dict Float) (k : Z),
           if include k
           then dict_set (pass_key k) (mean (estimate_pass_at_k total correct k)) d
           else d) [] ks.

Lemma pass_at_k_dict_get include total correct k :
  k ∈ ks →
  dict_get (pass_key k) (pass_at_k_dict include total correct) =
    if include k then Some (mean (estimate_pass_at_k total correct k)) else None.
Proof.
  unfold ks. rewrite !elem_of_cons, elem_of_nil.
  unfold pass_at_k_dict, ks. simpl.
  intros [->|[->|[->|[]]]];
    destruct (include 1%Z), (include 10%Z), (include 100%Z); reflexivity.
Qed.

Lemma pass_at_k_dict_keys include total correct key :
  is_Some (dict_get key (pass_at_k_dict include total correct)) →
  ∃ k, k ∈ ks ∧ key = pass_key k ∧ include k = true.
Proof.
  unfold pass_at_k_dict, ks. simpl.
  destruct (include 1%Z) eqn:H1, (include 10%Z) eqn:H10, (include 100%Z) eqn:H100;
    simpl; intros [v Hv];
    repeat match type of Hv with
           | context [decide (key = ?s)] =>
               destruct (decide (key = s)) as [->|]
           end;
    try discriminate;
    first [ by exists 1%Z; repeat split; [set_solver|done..]
          | by exists 10%Z; repeat split; [set_solver|done..]
          | by exists 100%Z; repeat split; [set_solver|done..] ].
Qed.

Lemma base_pass_at_k_ok total correct m :
  np_min total = Ok m →
  base_pass_at_k total correct =
    Ok (pass_at_k_dict (λ k, bool_decide (k ≤ m)%Z) total correct).
Proof. intros Hm. unfold base_pass_at_k, pass_at_k_dict, ks. simpl. by rewrite Hm. Qed.

Lemma np_min_ok total : total ≠ [] → ∃ m, np_min total = Ok m.
Proof. destruct total; [done|]. eauto. Qed.

(** The counts the two passes feed to the estimator. *)
Definition totals (results : Results) : list Z :=
  nfiles <$> dict_values (res_eval results).
Definition base_corrects (results : Results) : list Z :=
  base_correct_of <$> dict_values (res_eval results).
Definition new_corrects (results : Results) : list Z :=
  both_count <$> filter (λ res, truthy (t_plus res)) (dict_values (res_eval results)).

(** The summary is defined on a document with at least one task whose
    plus lists are in range; it prints the base dictionary and, when some
    task has plus results, the second one. *)
Definition summary_events (results : Results) : list event :=
  match np_min (totals results) with
  | Raise _ => []
  | Ok m =>
      [Print (PStr "Base");
       Print (PPassAtK (pass_at_k_dict (λ k, bool_decide (k ≤ m)%Z)
                          (totals results) (base_corrects results)))]
      ++ (if truthy (new_corrects results)
          then [Print (PStr "Base + Extra");
                Print (PPassAtK (pass_at_k_dict (np_all_ge (totals results))
                                   (totals results) (new_corrects results)))]
          else [])
  end.

Lemma report_pass_at_k_spec (results : Results) (w : world) :
  res_eval results ≠ [] →
  Forall plus_in_range (dict_values (res_eval results)) →
  report_pass_at_k results w = (Ok (), add_trace w (summary_events results)).
Proof.
  intros Hne Hwf. unfold report_pass_at_k, summary_events.
  destruct (np_min_ok (totals results)) as [m Hm].
  { unfold totals, dict_values. by destruct (res_eval results). }
  rewrite Hm.
  erewrite bind_ok; [|unfold lift; by rewrite (correct_fold _ [] []) by done].
  simpl.
  erewrite bind_ok; [|unfold lift; by erewrite base_pass_at_k_ok by exact Hm].
  fold (base_corrects results) (new_corrects results) (totals results).
  unfold print. erewrite bind_ok by apply emit_add_trace.
  erewrite bind_ok by apply emit_add_trace.
  rewrite add_trace_app.
  destruct (new_corrects results) as [|c cs] eqn:Hnc; simpl.
  - done.
  - erewrite bind_ok by apply emit_add_trace.
    rewrite emit_add_trace, !add_trace_app. done.
Qed.

(** ** Dictionaries *)

Lemma dict_get_set_eq {V} (k : string) (v : V) (d : dict V) :
  dict_get k (dict_set k v d) = Some v.
Proof.
  induction d as [|[k' v'] d IH]; simpl.
  - by rewrite decide_True.
  - destruct (decide (k = k')) as [->|Hne]; simpl.
    + by rewrite decide_True.
    + by rewrite decide_False.
Qed.

Lemma dict_get_set_ne {V} (k k' : string) (v : V) (d : dict V) :
  k ≠ k' → dict_get k' (dict_set k v d) = dict_get k' d.
Proof.
  intros Hne. induction d as [|[k0 v0] d IH]; simpl.
  - by rewrite decide_False by done.
  - destruct (decide (k = k0)) as [->|Hne0]; simpl.
    + by rewrite !decide_False by done.
    + by rewrite IH.
Qed.

Lemma dict_get_None {V} (k : string) (d : dict V) :
  dict_get k d = None ↔ k ∉ dict_keys d.
Proof.
  unfold dict_keys. induction d as [|[k' v'] d IH]; csimpl.
  - split; [intros _; apply not_elem_of_nil | done].
  - rewrite not_elem_of_cons. destruct (decide (k = k')); [|tauto].
    split; [done | tauto].
Qed.

Lemma dict_get_Some_elem {V} (k : string) (v : V) (d : dict V) :
  dict_get k d = Some v → (k, v) ∈ d.
Proof.
  induction d as [|[k' v'] d IH]; simpl; [done|].
  destruct (decide (k = k')) as [->|]; [intros [= ->]; left | right; auto].
Qed.

Lemma dict_get_elem {V} (k : string) (v : V) (d : dict V) :
  dict_wf d → (k, v) ∈ d → dict_get k d = Some v.
Proof.
  unfold dict_wf, dict_keys. induction d as [|[k' v'] d IH]; csimpl.
  - by intros _ ?%elem_of_nil.
  - rewrite NoDup_cons, elem_of_cons. intros [Hk Hd] [[= -> ->]|Hin].
    + by rewrite decide_True.
    + rewrite decide_False; [auto|]. intros ->. apply Hk.
      apply list_elem_of_fmap. by exists (k', v).
Qed.

(** On a fresh key, [d[k] = v] appends. *)
Lemma dict_set_fresh {V} (k : string) (v : V) (d : dict V) :
  k ∉ dict_keys d → dict_set k v d = d ++ [(k, v)].
Proof.
  unfold dict_keys. induction d as [|[k' v'] d IH]; csimpl; [done|].
  rewrite not_elem_of_cons. intros [Hne Hk].
  by rewrite decide_False, IH.
Qed.

Lemma dict_keys_set {V} (k : string) (v : V) (d : dict V) :
  dict_keys (dict_set k v d) =
    if decide (k ∈ dict_keys d) then dict_keys d else dict_keys d ++ [k].
Proof.
  unfold dict_keys. induction d as [|[k' v'] d IH]; csimpl; [done|].
  destruct (decide (k = k')) as [->|Hne]; csimpl.
  - by rewrite decide_True by left.
  - rewrite IH. destruct (decide (k ∈ d.*1)).
    + by rewrite decide_True by (by right).
    + rewrite decide_False; [done|]. rewrite elem_of_cons. tauto.
Qed.

Lemma dict_set_wf {V} (k : string) (v : V) (d : dict V) :
  dict_wf d → dict_wf (dict_set k v d).
Proof.
  unfold dict_wf. rewrite dict_keys_set. intros Hd.
  destruct (decide (k ∈ dict_keys d)); [done|].
  apply NoDup_app. split_and!; [done| |apply NoDup_singleton].
  intros x Hx ->%list_elem_of_singleton. done.
Qed.

(** [{k: f(v) for k, v in d.items()}] *)
Definition dict_map {V W} (f : V → W) (d : dict V) : dict W :=
  prod_map id f <$> d.

Lemma dict_get_map {V W} (f : V → W) (k : string) (d : dict V) :
  dict_get k (dict_map f d) = f <$> dict_get k d.
Proof.
  unfold dict_map. induction d as [|[k' v'] d IH]; csimpl; [done|].
  by destruct (decide (k = k')).
Qed.

Lemma dict_keys_map {V W} (f : V → W) (d : dict V) :
  dict_keys (dict_map f d) = dict_keys d.
Proof.
  unfold dict_keys, dict_map. rewrite <-list_fmap_compose.
  apply list_fmap_ext. by intros _ [??] _.
Qed.

(** ** Sorting *)

Definition key_le {A} (key : A → nat) (x y : A) : Prop := key x ≤ key y.

Lemma insert_by_key_Permutation {A} (key : A → nat) (x : A) (l : list A) :
  insert_by_key key x l ≡ₚ x :: l.
Proof.
  induction l as [|y l IH]; simpl; [done|].
  case_decide; [done|]. by rewrite IH, Permutation_swap.
Qed.

Lemma list_sort_Permutation {A} (key : A → nat) (l : list A) :
  list_sort key l ≡ₚ l.
Proof.
  induction l as [|x l IH]; simpl; [done|].
  by rewrite insert_by_key_Permutation, IH.
Qed.

Lemma insert_by_key_sorted {A} (key : A → nat) (x : A) (l : list A) :
  StronglySorted (key_le key) l →
  StronglySorted (key_le key) (insert_by_key key x l).
Proof.
  induction 1 as [|y l Hl IH Hy]; simpl.
  - repeat constructor.
  - case_decide as Hxy.
    + constructor; [by constructor|].
      constructor; [done|].
      eapply Forall_impl; [exact Hy|]. unfold key_le. intros z ?. lia.
    + constructor; [done|].
      rewrite insert_by_key_Permutation. constructor; [|done].
      unfold key_le. lia.
Qed.

Lemma list_sort_sorted {A} (key : A → nat) (l : list A) :
  StronglySorted (key_le key) (list_sort key l).
Proof.
  induction l as [|x l IH]; simpl; [constructor|].
  by apply insert_by_key_sorted.
Qed.

(** The sort is stable: entries with the same key keep their order. *)
Lemma insert_by_key_filter {A} (key : A → nat) (k : nat) (x : A) (l : list A) :
  filter (λ y, key y = k) (insert_by_key key x l) =
  filter (λ y, key y = k) (x :: l).
Proof.
  induction l as [|y l IH]; simpl; [done|].
  case_decide as Hxy; [done|].
  rewrite (filter_cons _ y), IH, !filter_cons.
  repeat case_decide; try done; lia.
Qed.

Lemma list_sort_stable {A} (key : A → nat) (k : nat) (l : list A) :
  filter (λ y, key y = k) (list_sort key l) = filter (λ y, key y = k) l.
Proof.
  induction l as [|x l IH]; simpl; [done|].
  by rewrite insert_by_key_filter, !filter_cons, IH.
Qed.

(** A list whose keys count up is the only sorted arrangement of its
    entries. *)
Lemma keys_seq_sorted {A} (key : A → nat) (l : list A) (a : nat) :
  key <$> l = seq a (length l) → StronglySorted (key_le key) l.
Proof.
  revert a. induction l as [|x l IH]; intros a; csimpl; [constructor|].
  intros [= Hx Hl]. constructor; [by eapply IH|].
  apply Forall_forall. intros y Hy. unfold key_le.
  assert (key y ∈ seq (S a) (length l)) as Hin.
  { rewrite <-Hl. by apply list_elem_of_fmap_2. }
  apply elem_of_seq in Hin. lia.
Qed.

Lemma list_sort_unique {A} (key : A → nat) (l l0 : list A) (a : nat) :
  key <$> l0 = seq a (length l0) → l ≡ₚ l0 → list_sort key l = l0.
Proof.
  intros Hkeys Hperm.
  apply (StronglySorted_unique_strong (key_le key)).
  - intros x1 x2 Hx1 Hx2 H12 H21.
    assert (key x1 = key x2) as Hk by (unfold key_le in *; lia).
    rewrite list_sort_Permutation, Hperm in Hx1.
    apply list_elem_of_lookup in Hx1 as [i1 Hi1].
    apply list_elem_of_lookup in Hx2 as [i2 Hi2].
    assert (seq a (length l0) !! i1 = Some (key x1)) as Hs1.
    { by rewrite <-Hkeys, list_lookup_fmap, Hi1. }
    assert (seq a (length l0) !! i2 = Some (key x2)) as Hs2.
    { by rewrite <-Hkeys, list_lookup_fmap, Hi2. }
    apply lookup_seq in Hs1 as [? ?], Hs2 as [? ?].
    assert (i1 = i2) as -> by lia. congruence.
  - apply list_sort_sorted.
  - by eapply keys_seq_sorted.
  - by rewrite list_sort_Permutation.
Qed.

(** ** The dispatcher: submission *)

(** The task a job was submitted for. *)
Definition job_task (j : Job) : string := task_id (j_problem j).

Definition jobs_of (tid : string) (jobs : list Job) : list Job :=
  filter (λ j, job_task j = tid) jobs.

(** The problem mapping is keyed by each problem's own [task_id]. *)
Definition dataset_consistent (problems : dict Problem) : Prop :=
  ∀ k p, dict_get k problems = Some p → task_id p = k.

(** The submission loop without its trace. *)
Definition submit_all (problems : dict Problem) (expected_output : dict Oracle)
    (flags : Flags) (st : dispatch) (solutions : list Sample) : result dispatch :=
  rfold (λ st sample,
           rbind (submit_step problems expected_output flags st sample)
                 (λ r, Ok r.1)) st solutions.

Lemma submit_step_spec problems eo flags st s st' job :
  submit_step problems eo flags st s = Ok (st', job) →
  futures st' = futures st ++ [job]
  ∧ completion_id st' =
      <[s_task_id s := S (counter_get (completion_id st) (s_task_id s))]> (completion_id st)
  ∧ n_samples st' = S (n_samples st)
  ∧ remainings st' = {[ s_identifier s ]} ∪ remainings st
  ∧ j_completion_id job = counter_get (completion_id st) (s_task_id s)
  ∧ dict_get (s_task_id s) problems = Some (j_problem job)
  ∧ dict_get (s_task_id s) eo = Some (j_expected_output job)
  ∧ j_base_only job = base_only flags
  ∧ j_identifier job = s_identifier s.
Proof.
  unfold submit_step, dict_item, mbind, result_bind.
  destruct (s_solution s) as [sol|]; simpl;
    destruct (dict_get (s_task_id s) problems) as [p|] eqn:Hp; simpl; try done;
    destruct (s_completion s) as [c|]; simpl; try done;
    destruct (dict_get (s_task_id s) eo) as [o|] eqn:Ho; simpl; try done;
    intros [= <- <-]; simpl; by repeat split.
Qed.

(** What the submission loop has built once it is through [solutions],
    from any starting state: one job per sample, in order, and per task
    the completion indices count up from the counter's starting value. *)
Lemma submit_all_spec problems eo flags st0 solutions st :
  dataset_consistent problems →
  submit_all problems eo flags st0 solutions = Ok st →
  ∃ new,
    futures st = futures st0 ++ new
    ∧ n_samples st = n_samples st0 + length solutions
    ∧ remainings st = list_to_set (s_identifier <$> solutions) ∪ remainings st0
    ∧ j_identifier <$> new = s_identifier <$> solutions
    ∧ job_task <$> new = s_task_id <$> solutions
    ∧ Forall (λ j, dict_get (job_task j) problems = Some (j_problem j)
                   ∧ j_base_only j = base_only flags) new
    ∧ (∀ tid, completion_id st !! tid =
              match jobs_of tid new with
              | [] => completion_id st0 !! tid
              | js => Some (counter_get (completion_id st0) tid + length js)
              end)
    ∧ (∀ tid, j_completion_id <$> jobs_of tid new =
              seq (counter_get (completion_id st0) tid) (length (jobs_of tid new))).
Proof.
  intros Hcons. revert st0. unfold submit_all.
  induction solutions as [|s solutions IH]; intros st0; simpl.
  - intros [= <-]. exists []. rewrite app_nil_r.
    split_and!; try done; try lia; set_solver.
  - destruct (submit_step problems eo flags st0 s) as [[st1 job]|] eqn:Hstep;
      simpl; [|done].
    intros Hrest. apply IH in Hrest
      as (new & Hfut & Hn & Hrem & Hids & Htasks & Hjobs & Hcnt & Hcids).
    apply submit_step_spec in Hstep
      as (Hfut1 & Hcnt1 & Hn1 & Hrem1 & Hcid & Hp & Ho & Hbo & Hid).
    assert (job_task job = s_task_id s) as Htask by (by apply Hcons).
    exists (job :: new). split_and!.
    + by rewrite Hfut, Hfut1, <-app_assoc.
    + rewrite Hn, Hn1. lia.
    + rewrite Hrem, Hrem1. set_solver.
    + csimpl. by rewrite Hid, Hids.
    + csimpl. by rewrite Htask, Htasks.
    + constructor; [|done]. by rewrite Htask.
    + intros tid. rewrite Hcnt, Hcnt1. unfold jobs_of, counter_get.
      rewrite filter_cons, Htask.
      destruct (decide (s_task_id s = tid)) as [->|Hne].
      * rewrite lookup_insert_eq. simpl.
        destruct (filter _ new); simpl; f_equal; lia.
      * by rewrite lookup_insert_ne by done.
    + intros tid. specialize (Hcids tid). revert Hcids.
      unfold jobs_of, counter_get. rewrite Hcnt1, filter_cons, Htask.
      destruct (decide (s_task_id s = tid)) as [Heq|Hne]; [subst tid|].
      * rewrite lookup_insert_eq. csimpl. intros ->. by rewrite Hcid.
      * by rewrite lookup_insert_ne by done.
Qed.

(** ** The dispatcher: the two assertions *)

(** [sum(completion_id.values())] *)
Definition counter_total (c : gmap string nat) : nat :=
  sum_list ((map_to_list c).*2).

(** The number of loaded samples for a task. *)
Definition candidates (tid : string) (solutions : list Sample) : nat :=
  length (filter (λ s, s_task_id s = tid) solutions).

Lemma counter_total_incr (c : gmap string nat) (k : string) :
  counter_total (<[k := S (counter_get c k)]> c) = S (counter_total c).
Proof.
  unfold counter_total, counter_get.
  destruct (c !! k) as [n|] eqn:Hk; simpl.
  - assert (map_to_list c ≡ₚ (k, n) :: map_to_list (delete k c)) as Hc.
    { rewrite <-map_to_list_insert by apply lookup_delete_eq.
      by rewrite insert_delete_id. }
    rewrite <-(insert_delete_eq c), map_to_list_insert by apply lookup_delete_eq.
    by rewrite Hc.
  - by rewrite map_to_list_insert by done.
Qed.

Lemma size_list_to_set_le (l : list string) :
  size (list_to_set l : gset string) ≤ length l.
Proof.
  induction l as [|x l IH]; csimpl; [done|].
  destruct (decide (x ∈ l)) as [Hin|Hnin].
  - assert ({[x]} ∪ list_to_set l = (list_to_set l : gset string)) as ->
      by set_solver.
    lia.
  - rewrite size_union, size_singleton by set_solver. lia.
Qed.

(** [len(set(l)) == len(l)] exactly when [l] has no repetition. *)
Lemma size_list_to_set_NoDup (l : list string) :
  size (list_to_set l : gset string) = length l ↔ NoDup l.
Proof.
  split; [|apply size_list_to_set].
  induction l as [|x l IH]; csimpl; [constructor|].
  intros Hsize. pose proof (size_list_to_set_le l) as Hle.
  destruct (decide (x ∈ l)) as [Hin|Hnin].
  - assert ({[x]} ∪ list_to_set l = (list_to_set l : gset string)) as Heq
      by set_solver.
    rewrite Heq in Hsize. lia.
  - constructor; [done|]. apply IH.
    rewrite size_union, size_singleton in Hsize by set_solver. lia.
Qed.

(** The counters after the loop, in terms of the loaded samples alone. *)
Lemma submit_all_counter problems eo flags st0 solutions st :
  submit_all problems eo flags st0 solutions = Ok st →
  n_samples st = n_samples st0 + length solutions
  ∧ remainings st = list_to_set (s_identifier <$> solutions) ∪ remainings st0
  ∧ counter_total (completion_id st) =
      counter_total (completion_id st0) + length solutions
  ∧ (∀ tid, completion_id st !! tid =
            match candidates tid solutions with
            | 0 => completion_id st0 !! tid
            | S _ as n => Some (counter_get (completion_id st0) tid + n)
            end)
  ∧ Forall (λ s, s_task_id s ∈ dict_keys problems) solutions.
Proof.
  revert st0. unfold submit_all, candidates.
  induction solutions as [|s solutions IH]; intros st0; simpl.
  - intros [= <-]. split_and!; try done; try lia; set_solver.
  - destruct (submit_step problems eo flags st0 s) as [[st1 job]|] eqn:Hstep;
      simpl; [|done].
    intros Hrest. apply IH in Hrest as (Hn & Hrem & Htot & Hcnt & Hkeys).
    apply submit_step_spec in Hstep
      as (Hfut1 & Hcnt1 & Hn1 & Hrem1 & Hcid & Hp & Ho & Hbo & Hid).
    split_and!.
    + rewrite Hn, Hn1. lia.
    + rewrite Hrem, Hrem1. set_solver.
    + rewrite Htot, Hcnt1, counter_total_incr. lia.
    + intros tid. rewrite Hcnt, Hcnt1, filter_cons. unfold counter_get.
      destruct (decide (s_task_id s = tid)) as [Heq|Hne]; [subst tid|].
      * rewrite lookup_insert_eq. simpl.
        destruct (length (filter _ solutions)); simpl; f_equal; lia.
      * by rewrite lookup_insert_ne by done.
    + constructor; [|done].
      apply dict_get_Some_elem in Hp.
      apply list_elem_of_fmap. by eexists (_, _).
Qed.

Lemma candidates_pos (tid : string) (solutions : list Sample) :
  0 < candidates tid solutions ↔ tid ∈ s_task_id <$> solutions.
Proof.
  unfold candidates. induction solutions as [|s l IH]; csimpl.
  - split; [lia | by intros ?%elem_of_nil].
  - rewrite filter_cons, elem_of_cons.
    destruct (decide (s_task_id s = tid)) as [->|Hne]; simpl.
    + split; [by left | lia].
    + rewrite IH. split; [by right | by intros [?|?]].
Qed.

(** After a loop from the initial state the counter holds, per task, the
    number of its samples, and only the tasks that have one. *)
Lemma submit_all_init problems eo flags solutions st :
  submit_all problems eo flags dispatch_init solutions = Ok st →
  n_samples st = length solutions
  ∧ remainings st = list_to_set (s_identifier <$> solutions)
  ∧ counter_total (completion_id st) = length solutions
  ∧ (∀ tid, counter_get (completion_id st) tid = candidates tid solutions)
  ∧ dom (completion_id st) = list_to_set (s_task_id <$> solutions)
  ∧ dom (completion_id st) ⊆ list_to_set (dict_keys problems).
Proof.
  intros (Hn & Hrem & Htot & Hcnt & Hkeys)%submit_all_counter. simpl in *.
  assert (∀ tid, counter_get (completion_id st) tid = candidates tid solutions)
    as Hget.
  { intros tid. unfold counter_get. rewrite Hcnt, lookup_empty.
    by destruct (candidates tid solutions). }
  assert (dom (completion_id st) = list_to_set (s_task_id <$> solutions)) as Hdom.
  { apply set_eq. intros tid.
    rewrite elem_of_dom, elem_of_list_to_set, <-candidates_pos, Hcnt, lookup_empty.
    destruct (candidates tid solutions); simpl.
    - split; [by intros [? ?] | lia].
    - split; [lia | eauto]. }
  split_and!; try done.
  - rewrite Hrem. set_solver.
  - rewrite Hdom. intros tid. rewrite !elem_of_list_to_set.
    intros (s & -> & Hs)%list_elem_of_fmap.
    by eapply Forall_forall in Hkeys.
Qed.

(** C6. After the submission loop the two assertions pass exactly when the
    number of submitted candidates equals the number of distinct run
    identifiers and the number of tasks with a candidate equals the number
    of problems; otherwise the run stops with an [AssertionError].  When
    they pass, the per-task candidate counts add up to the number of
    submitted candidates and every problem has at least one candidate. *)
Theorem submission_checks problems eo flags solutions st :
  dict_wf problems →
  submit_all problems eo flags dispatch_init solutions = Ok st →
  (check_submitted problems st = Ok () ↔
     length solutions = size (list_to_set (s_identifier <$> solutions) : gset string)
     ∧ size (list_to_set (s_task_id <$> solutions) : gset string) = dict_len problems)
  ∧ (check_submitted problems st = Ok ()
     ∨ ∃ msg, check_submitted problems st = Raise (AssertionError msg))
  ∧ (check_submitted problems st = Ok () →
       counter_total (completion_id st) = length solutions
       ∧ (∀ tid, counter_get (completion_id st) tid = candidates tid solutions)
       ∧ (∀ tid, tid ∈ dict_keys problems → 1 ≤ candidates tid solutions)).
Proof.
  intros Hwf (Hn & Hrem & Htot & Hget & Hdom & Hsub)%submit_all_init.
  assert (size (completion_id st) =
          size (list_to_set (s_task_id <$> solutions) : gset string)) as Hsize.
  { by rewrite <-Hdom, size_dom. }
  unfold check_submitted. rewrite Hn, Hrem, Hsize.
  split_and!.
  - repeat case_decide; split; try done; tauto.
  - repeat case_decide; eauto.
  - repeat case_decide; try done. intros _. split_and!; [done..|].
    intros tid Htid.
    assert (dom (completion_id st) = list_to_set (dict_keys problems)) as Heq.
    { apply set_subseteq_size_eq; [done|].
      rewrite size_list_to_set by done. rewrite Hdom.
      unfold dict_len, dict_keys in *. rewrite length_fmap. lia. }
    apply candidates_pos. rewrite <-(elem_of_list_to_set (C:=gset string)), <-Hdom, Heq.
    by apply elem_of_list_to_set.
Qed.

(** ** The dispatcher: collection and aggregation *)

(** The check results of the jobs of one task, in the order of [jobs]. *)
Definition results_of (tid : string) (jobs : list Job) : list CheckResult :=
  future_result <$> jobs_of tid jobs.

Lemma results_of_cons tid j jobs :
  results_of tid (j :: jobs) =
    if decide (job_task j = tid) then future_result j :: results_of tid jobs
    else results_of tid jobs.
Proof. unfold results_of, jobs_of. rewrite filter_cons. by case_decide. Qed.

(** Whatever the completion order, the loop removes every identifier once
    and files every result under its task, in completion order. *)
Lemma collect_spec (completed : list Job) (rem : gset string)
    (er : dict (list CheckResult)) :
  NoDup (j_identifier <$> completed) →
  (∀ j, j ∈ completed → j_identifier j ∈ rem) →
  dict_wf er →
  ∃ er',
    rfold collect_step (rem, er) completed =
      Ok (rem ∖ list_to_set (j_identifier <$> completed), er')
    ∧ dict_wf er'
    ∧ ∀ tid, dict_get tid er' =
             match results_of tid completed with
             | [] => dict_get tid er
             | rs => Some (default [] (dict_get tid er) ++ rs)
             end.
Proof.
  revert rem er. induction completed as [|j completed IH]; intros rem er; csimpl.
  - intros _ _ Hwf. exists er. split_and!; [|done..].
    do 2 f_equal. set_solver.
  - rewrite NoDup_cons. intros [Hj Hnd] Hrem Hwf.
    rewrite decide_True by (apply Hrem; left).
    set (er1 := dict_set (job_task j)
                  (default [] (dict_get (job_task j) er) ++ [future_result j]) er).
    destruct (IH (rem ∖ {[ j_identifier j ]}) er1) as (er' & Hfold & Hwf' & Hget).
    + done.
    + intros j' Hj'. apply elem_of_difference. split; [apply Hrem; by right|].
      rewrite elem_of_singleton. intros Heq. apply Hj. rewrite <-Heq.
      by apply list_elem_of_fmap_2.
    + by apply dict_set_wf.
    + exists er'. split_and!; [|done|].
      * simpl. unfold er1, job_task in *. simpl in *. rewrite Hfold.
        do 2 f_equal. set_solver.
      * intros tid. rewrite Hget, results_of_cons. unfold er1.
        destruct (decide (job_task j = tid)) as [Heq|Hne]; [subst tid|].
        -- rewrite dict_get_set_eq. simpl.
           destruct (results_of (job_task j) completed); simpl.
           ++ done.
           ++ by rewrite <-app_assoc.
        -- by rewrite dict_get_set_ne by done.
Qed.

(** [[x["plus"] for x in task_results] if not flags.base_only else []] *)
Definition plus_of (flags : Flags) (task_results : list CheckResult) : list Result :=
  if negb (base_only flags) then omap r_plus task_results else [].

(** The entry of [results["eval"]] built from the collected results of one
    task. *)
Definition task_result_of (flags : Flags) (task_results : list CheckResult)
    : TaskResult :=
  let sorted := list_sort r_completion_id task_results in
  {| nfiles := Z.of_nat (length sorted);
     t_base := r_base <$> sorted;
     t_plus := plus_of flags sorted |}.

Lemma rmap_plus (l : list CheckResult) :
  Forall (λ r, is_Some (r_plus r)) l →
  rmap (λ x, of_option KeyError (r_plus x)) l = Ok (omap r_plus l).
Proof.
  induction 1 as [|r l [p Hp] _ IH]; csimpl; [done|].
  by rewrite Hp, IH.
Qed.

Lemma aggregate_step_ok flags acc tid trs :
  (base_only flags = false → Forall (λ r, is_Some (r_plus r)) trs) →
  aggregate_step flags acc (tid, trs) =
    Ok (dict_set tid (task_result_of flags trs) acc).
Proof.
  intros Hplus. unfold aggregate_step, task_result_of, plus_of, mbind, result_bind.
  destruct (base_only flags); simpl; [done|].
  rewrite rmap_plus; [done|].
  rewrite list_sort_Permutation. by apply Hplus.
Qed.

Lemma aggregate_spec flags (acc : dict TaskResult) (er : dict (list CheckResult)) :
  NoDup (dict_keys acc ++ dict_keys er) →
  (base_only flags = false →
   Forall (λ item, Forall (λ r, is_Some (r_plus r)) item.2) er) →
  rfold (aggregate_step flags) acc er =
    Ok (acc ++ dict_map (task_result_of flags) er).
Proof.
  revert acc. induction er as [|[tid trs] er IH]; intros acc Hnd Hplus;
    cbn [rfold].
  - by rewrite app_nil_r.
  - unfold dict_keys in *. rewrite fmap_cons in Hnd. simpl in Hnd.
    apply NoDup_app in Hnd as (Hacc & Hdisj & [Htid Her]%NoDup_cons).
    rewrite aggregate_step_ok; cbn [rbind].
    + rewrite dict_set_fresh by (intros Hin; apply (Hdisj _ Hin); left).
      rewrite IH.
      * by rewrite <-app_assoc.
      * unfold dict_keys. rewrite fmap_app. simpl.
        apply NoDup_app. split_and!; [|intros k Hk|done].
        -- apply NoDup_app. split_and!; [done| |apply NoDup_singleton].
           intros k Hk ->%list_elem_of_singleton. apply (Hdisj _ Hk). left.
        -- apply elem_of_app in Hk as [Hk| ->%list_elem_of_singleton]; [|done].
           intros Hk'. apply (Hdisj _ Hk). by right.
      * intros Hbo. specialize (Hplus Hbo). by inversion Hplus.
    + intros Hbo. specialize (Hplus Hbo). by inversion Hplus.
Qed.

(** The entry of a task in terms of its jobs in submission order. *)
Definition expected_entry (flags : Flags) (js : list Job) : TaskResult :=
  {| nfiles := Z.of_nat (length js);
     t_base := r_base <$> (future_result <$> js);
     t_plus := plus_of flags (future_result <$> js) |}.

Lemma results_of_Permutation tid (l1 l2 : list Job) :
  l1 ≡ₚ l2 → results_of tid l1 ≡ₚ results_of tid l2.
Proof. intros H. unfold results_of, jobs_of. by rewrite H. Qed.

Lemma completion_ids_of_results (js : list Job) :
  r_completion_id <$> (future_result <$> js) = j_completion_id <$> js.
Proof. rewrite <-list_fmap_compose. by apply list_fmap_ext. Qed.

(** Collection followed by aggregation, for any completion order of the
    submitted futures: it succeeds, empties [remainings], and every task's
    entry lists the task's results in submission order. *)
Lemma dispatch_spec problems eo flags solutions st completed :
  dataset_consistent problems →
  submit_all problems eo flags dispatch_init solutions = Ok st →
  check_submitted problems st = Ok () →
  completed ≡ₚ futures st →
  ∃ er,
    collect st completed = Ok (∅, er)
    ∧ aggregate flags er = Ok (dict_map (task_result_of flags) er)
    ∧ (∀ tid, dict_get tid er =
              match results_of tid completed with [] => None | rs => Some rs end)
    ∧ (∀ tid, list_sort r_completion_id (results_of tid completed) =
              results_of tid (futures st))
    ∧ (∀ tid, dict_get tid (dict_map (task_result_of flags) er) =
              match jobs_of tid (futures st) with
              | [] => None
              | js => Some (expected_entry flags js)
              end).
Proof.
  intros Hcons Hsub Hchk Hperm.
  destruct (submit_all_spec _ _ _ _ _ _ Hcons Hsub)
    as (new & Hfut & Hn & Hrem & Hids & Htasks & Hjobs & Hcnt & Hcids).
  simpl in *. subst new.
  assert (NoDup (j_identifier <$> futures st)) as Hnd.
  { rewrite Hids. apply size_list_to_set_NoDup.
    unfold check_submitted in Hchk. case_decide as Hsz; [|done].
    rewrite length_fmap, <-Hn, Hsz, Hrem. f_equal. set_solver. }
  destruct (collect_spec completed (remainings st) []) as (er & Hcol & Hwf & Hget).
  { by rewrite Hperm. }
  { intros j Hj. rewrite Hrem, elem_of_union, elem_of_list_to_set, <-Hids.
    left. apply list_elem_of_fmap_2. by rewrite <-Hperm. }
  { apply NoDup_nil_2. }
  assert (∀ tid, list_sort r_completion_id (results_of tid completed) =
                 results_of tid (futures st)) as Hsort.
  { intros tid. apply (list_sort_unique _ _ _ 0).
    - unfold results_of. rewrite completion_ids_of_results, Hcids.
      by rewrite !length_fmap.
    - by apply results_of_Permutation. }
  assert (∀ tid, dict_get tid er =
                 match results_of tid completed with [] => None | rs => Some rs end)
    as Hget'.
  { intros tid. rewrite Hget. by destruct (results_of tid completed). }
  exists er. split_and!; [| |done|done|].
  - unfold collect. etrans; [exact Hcol|]. do 2 f_equal.
    rewrite Hperm, Hids, Hrem. set_solver.
  - unfold aggregate. rewrite aggregate_spec; [done|by simpl|].
    intros Hbo. apply Forall_forall. intros [tid trs] Hin. simpl.
    apply dict_get_elem in Hin; [|done]. rewrite Hget' in Hin.
    assert (trs = results_of tid completed) as ->
      by (destruct (results_of tid completed); congruence).
    apply Forall_forall. intros r (j & -> & Hj)%list_elem_of_fmap.
    apply list_elem_of_filter in Hj as [_ Hj]. rewrite Hperm in Hj.
    eapply Forall_forall in Hjobs as [_ Hjbo]; [|done].
    unfold future_result, check_correctness. simpl. rewrite Hjbo, Hbo. eauto.
  - intros tid. rewrite dict_get_map, Hget'.
    pose proof (results_of_Permutation tid _ _ Hperm) as Hp.
    specialize (Hsort tid).
    assert (results_of tid (futures st) = future_result <$> jobs_of tid (futures st))
      as Hres by done.
    rewrite Hres in Hp, Hsort.
    destruct (jobs_of tid (futures st)) as [|j js] eqn:Hjs.
    + apply Permutation_nil_r in Hp. by rewrite Hp.
    + destruct (results_of tid completed) as [|r rs] eqn:Hrs.
      { by apply Permutation_nil_cons in Hp. }
      simpl. f_equal. unfold task_result_of, expected_entry.
      rewrite Hsort. by rewrite !length_fmap.
Qed.

(** ** The oracle cache *)

Lemma print_add_trace p w : print p w = (Ok (), add_trace w [Print p]).
Proof. done. Qed.

(** What reading the cache file gives. *)
Definition unpickle (n : node stored) : result (dict Oracle) :=
  match n with
  | File (Pickled o) => Ok o
  | File _ => Raise UnpicklingError
  | Dir => Raise IsADirectoryError
  end.

(** When the cache file exists nothing is executed: the outcome is what
    the file unpickles to, and only the load message is printed. *)
Lemma get_groundtruth_hit problems hashcode w n :
  fs w !! cache_file_of hashcode = Some n →
  get_groundtruth problems hashcode w =
    (unpickle n,
     add_trace w [Print (PStr ("Load from " +:+ cache_file_of hashcode))]).
Proof.
  intros Hn. unfold get_groundtruth, pickle_load.
  unfold mbind, M_bind, bind, get_fs, print, emit, lift, read_file, os_path_exists.
  simpl. rewrite Hn. simpl. rewrite Hn.
  destruct n as [[s|o|r]|]; done.
Qed.

(** One problem's oracle and the clock after its two executions. *)
Definition oracle_entry (problem : Problem) (c : Clock) : Oracle * Clock :=
  let code := prompt problem +:+ canonical_solution problem in
  let '(b, c1) := trusted_exec code (base_input problem) (entry_point problem) c in
  let '(p, c2) := trusted_exec code (plus_input problem) (entry_point problem) c1 in
  ({| o_base := b.1; o_base_time := b.2; o_plus := p.1; o_plus_time := p.2 |}, c2).

(** The loop over [problems.items()] as a function of the clock. *)
Fixpoint oracle_run (problems : dict Problem) (acc : dict Oracle) (c : Clock)
    : dict Oracle * Clock :=
  match problems with
  | [] => (acc, c)
  | (task_id, problem) :: rest =>
      let '(o, c') := oracle_entry problem c in
      oracle_run rest (dict_set task_id o acc) c'
  end.

(** The executions of the loop: per problem, the base suite and then the
    plus suite of the canonical solution. *)
Definition exec_events (problems : dict Problem) : list event :=
  item ← problems;
  let problem := item.2 in
  let code := prompt problem +:+ canonical_solution problem in
  [TrustedExec code (base_input problem) (entry_point problem);
   TrustedExec code (plus_input problem) (entry_point problem)].

Lemma groundtruth_loop problems acc w :
  mfold groundtruth_step acc problems w =
    (Ok (oracle_run problems acc (clock w)).1,
     {| fs := fs w; clock := (oracle_run problems acc (clock w)).2;
        stdin := stdin w; trace := trace w ++ exec_events problems |}).
Proof.
  revert acc w. induction problems as [|[tid p] problems IH]; intros acc w.
  - simpl. unfold ret. destruct w; simpl. by rewrite app_nil_r.
  - cbn [mfold oracle_run]. unfold bind, groundtruth_step.
    unfold mbind, M_bind, bind, call_trusted_exec, mret, M_ret, ret, oracle_entry.
    destruct (trusted_exec _ (base_input p) _ (clock w)) as [b c1] eqn:Hb. simpl.
    destruct (trusted_exec _ (plus_input p) _ c1) as [pl c2] eqn:Hp. simpl.
    rewrite IH. simpl. unfold exec_events. csimpl.
    by rewrite <-!app_assoc.
Qed.

(** The world after a fresh computation of the oracle. *)
Definition computed_world (problems : dict Problem) (hashcode : string) (w : world)
    : world :=
  let run := oracle_run problems [] (clock w) in
  {| fs := <[cache_file_of hashcode := File (Pickled run.1)]> (fs w);
     clock := run.2;
     stdin := stdin w;
     trace := trace w ++ [Print (PStr "Computing expected output...")]
                ++ exec_events problems ++ [Print PElapsed] |}.

Lemma get_groundtruth_miss problems hashcode w :
  fs w !! cache_file_of hashcode = None →
  get_groundtruth problems hashcode w =
    (Ok (oracle_run problems [] (clock w)).1, computed_world problems hashcode w).
Proof.
  intros Hn. unfold get_groundtruth, pickle_dump.
  unfold mbind, M_bind, bind, get_fs, os_path_exists. simpl. rewrite Hn.
  rewrite groundtruth_loop. simpl.
  unfold write_file, put_fs, ret, computed_world. simpl.
  rewrite Hn. simpl. by rewrite <-!app_assoc.
Qed.

(** Every oracle entry comes from the canonical solution of its problem:
    the keys of the computed mapping are the problems' keys, in order, and
    each entry is [oracle_entry] of its problem at some clock. *)
Lemma oracle_run_entries problems acc c :
  NoDup (dict_keys acc ++ dict_keys problems) →
  ∃ new,
    (oracle_run problems acc c).1 = acc ++ new
    ∧ dict_keys new = dict_keys problems
    ∧ Forall2 (λ item entry, ∃ c', entry.2 = (oracle_entry item.2 c').1)
        problems new.
Proof.
  revert acc c. induction problems as [|[tid p] problems IH]; intros acc c Hnd.
  - exists []. by rewrite app_nil_r.
  - cbn [oracle_run]. destruct (oracle_entry p c) as [o c'] eqn:Ho.
    unfold dict_keys in *. rewrite fmap_cons in Hnd. simpl in Hnd.
    assert (tid ∉ acc.*1) as Hfresh.
    { intros Hin. apply NoDup_app in Hnd as (_ & Hd & _). apply (Hd _ Hin). left. }
    destruct (IH (dict_set tid o acc) c') as (new & Hrun & Hkeys & Hall).
    { rewrite dict_set_fresh by done. rewrite fmap_app. simpl.
      by rewrite <-app_assoc. }
    exists ((tid, o) :: new). split_and!.
    + rewrite Hrun, dict_set_fresh by done. by rewrite <-app_assoc.
    + csimpl. by rewrite Hkeys.
    + constructor; [|done]. exists c. simpl. by rewrite Ho.
Qed.

(** [o] holds what the canonical solution of [problem] produced on the base
    and the plus suite, with the time of each of the two executions. *)
Definition oracle_from_canonical (problem : Problem) (o : Oracle) : Prop :=
  ∃ c : Clock,
    let code := prompt problem +:+ canonical_solution problem in
    let base_run := trusted_exec code (base_input problem) (entry_point problem) c in
    let plus_run :=
      trusted_exec code (plus_input problem) (entry_point problem) base_run.2 in
    o_base o = base_run.1.1 ∧ o_base_time o = base_run.1.2
    ∧ o_plus o = plus_run.1.1 ∧ o_plus_time o = plus_run.1.2.

Lemma oracle_entry_from_canonical problem c :
  oracle_from_canonical problem (oracle_entry problem c).1.
Proof.
  exists c. unfold oracle_entry.
  destruct (trusted_exec _ (base_input problem) _ c) as [b c1]. simpl.
  by destruct (trusted_exec _ (plus_input problem) _ c1) as [p c2].
Qed.

(** C4. [get_groundtruth]: with a pickled mapping in the cache file, it is
    returned as stored and no solution is executed.  With no cache file,
    every problem's canonical solution is executed on the base and then the
    plus suite, times included, the mapping is stored in the cache file
    before it is returned, and a second call on the resulting world gives
    back the same mapping from the file. *)
Theorem get_groundtruth_cache problems hashcode w :
  dict_wf problems →
  let cache_file := cache_file_of hashcode in
  let loaded := Print (PStr ("Load from " +:+ cache_file)) in
  (∀ o, fs w !! cache_file = Some (File (Pickled o)) →
        get_groundtruth problems hashcode w = (Ok o, add_trace w [loaded]))
  ∧ (fs w !! cache_file = None →
     ∃ eo w',
       get_groundtruth problems hashcode w = (Ok eo, w')
       ∧ dict_keys eo = dict_keys problems
       ∧ Forall2 (λ item entry, oracle_from_canonical item.2 entry.2) problems eo
       ∧ trace w' = trace w ++ [Print (PStr "Computing expected output...")]
                      ++ exec_events problems ++ [Print PElapsed]
       ∧ fs w' = <[cache_file := File (Pickled eo)]> (fs w)
       ∧ get_groundtruth problems hashcode w' = (Ok eo, add_trace w' [loaded])).
Proof.
  intros Hwf cache_file loaded. split.
  - intros o Ho. by rewrite (get_groundtruth_hit _ _ _ _ Ho).
  - intros Hnone. eexists _, _. split; [by apply get_groundtruth_miss|].
    destruct (oracle_run_entries problems [] (clock w)) as (new & Hrun & Hkeys & Hall);
      [done|].
    simpl in Hrun. rewrite Hrun. split_and!; try done.
    + eapply Forall2_impl; [exact Hall|]. intros [tid p] [tid' o] [c ->]. simpl.
      apply oracle_entry_from_canonical.
    + unfold computed_world. cbn [fs]. by rewrite Hrun.
    + rewrite (get_groundtruth_hit _ _ _ (File (Pickled new))); [done|].
      unfold computed_world. cbn [fs]. by rewrite lookup_insert_eq, Hrun.
Qed.

(** ** The fresh computation *)

Lemma bind_inv_ok {A B} (m : M A) (k : A → M B) w b w' :
  (m ≫= k) w = (Ok b, w') → ∃ a w1, m w = (Ok a, w1) ∧ k a w1 = (Ok b, w').
Proof.
  unfold mbind, M_bind, bind. destruct (m w) as [[a|e] w1]; [eauto|done].
Qed.

Lemma lift_inv_ok {A} (r : result A) w a w' :
  lift r w = (Ok a, w') → r = Ok a ∧ w' = w.
Proof. unfold lift. by intros [= -> ->]. Qed.

(** The jobs the submission loop hands to the pool before it ends or
    raises. *)
Fixpoint submit_jobs (problems : dict Problem) (eo : dict Oracle) (flags : Flags)
    (st : dispatch) (solutions : list Sample) : list Job :=
  match solutions with
  | [] => []
  | sample :: rest =>
      match submit_step problems eo flags st sample with
      | Ok (st', job) => job :: submit_jobs problems eo flags st' rest
      | Raise _ => []
      end
  end.

Lemma submit_loop problems eo flags st solutions w :
  mfold (submit_sample problems eo flags) st solutions w =
    (submit_all problems eo flags st solutions,
     add_trace w (Submit <$> submit_jobs problems eo flags st solutions)).
Proof.
  revert st w. unfold submit_all.
  induction solutions as [|s solutions IH]; intros st w; cbn [mfold rfold submit_jobs].
  - unfold ret. by rewrite add_trace_nil.
  - unfold bind, submit_sample, mbind, M_bind, bind, lift.
    destruct (submit_step problems eo flags st s) as [[st1 job]|e]; simpl.
    + unfold ret. rewrite IH. f_equal. unfold add_trace. simpl.
      by rewrite <-app_assoc.
    + by rewrite add_trace_nil.
Qed.

Lemma submit_jobs_futures problems eo flags st solutions st' :
  submit_all problems eo flags st solutions = Ok st' →
  futures st' = futures st ++ submit_jobs problems eo flags st solutions.
Proof.
  revert st. unfold submit_all.
  induction solutions as [|s solutions IH]; intros st; cbn [rfold submit_jobs].
  - intros [= <-]. by rewrite app_nil_r.
  - destruct (submit_step problems eo flags st s) as [[st1 job]|e] eqn:Hstep;
      simpl; [|done].
    intros ->%IH. apply submit_step_spec in Hstep as (-> & _).
    by rewrite <-app_assoc.
Qed.

(** A fresh computation that returns went through every stage. *)
Lemma compute_results_inv as_completed flags n_workers w results w' :
  compute_results as_completed flags n_workers w = (Ok results, w') →
  ∃ eo w1 solutions st rem er,
    get_groundtruth get_human_eval_plus get_human_eval_plus_hash w = (Ok eo, w1)
    ∧ (0 < n_workers)%Z
    ∧ load_solutions (fs w1) (samples flags) = Ok solutions
    ∧ submit_all get_human_eval_plus eo flags dispatch_init solutions = Ok st
    ∧ check_submitted get_human_eval_plus st = Ok ()
    ∧ collect st (as_completed (futures st)) = Ok (rem, er)
    ∧ aggregate flags er = Ok (res_eval results)
    ∧ res_date results = strftime_now (clock w1)
    ∧ res_hash results = get_human_eval_plus_hash
    ∧ w' = add_trace w1 (Print (PStr "Reading samples...") :: (Submit <$> futures st)).
Proof.
  unfold compute_results. intros H.
  apply bind_inv_ok in H as (eo & w1 & Hgt & H).
  apply bind_inv_ok in H as (date & w2 & [= <- <-] & H).
  apply bind_inv_ok in H as ([] & w3 & [Hpool ->]%lift_inv_ok & H).
  apply bind_inv_ok in H as ([] & w4 & [= <-] & H).
  apply bind_inv_ok in H as (f & w5 & [= <- <-] & H).
  apply bind_inv_ok in H as (solutions & w6 & [Hload ->]%lift_inv_ok & H).
  apply bind_inv_ok in H as (st & w7 & Hsub & H).
  rewrite submit_loop in Hsub. injection Hsub as Hsub <-.
  apply bind_inv_ok in H as ([] & w8 & [Hchk ->]%lift_inv_ok & H).
  apply bind_inv_ok in H as ([rem er] & w9 & [Hcol ->]%lift_inv_ok & H).
  apply bind_inv_ok in H as (ev & w10 & [Hagg ->]%lift_inv_ok & H).
  injection H as <- <-.
  exists eo, w1, solutions, st, rem, er. split_and!; try done.
  - unfold process_pool_executor in Hpool. case_decide; [done|lia].
  - rewrite (submit_jobs_futures _ _ _ _ _ _ Hsub). unfold add_trace. simpl.
    by rewrite <-app_assoc.
Qed.


Lemma filter_fmap_length {A B} (f : A → B) (P : B → Prop) `{!∀ x, Decision (P x)}
    (l : list A) :
  length (filter P (f <$> l)) = length (filter (λ x, P (f x)) l).
Proof.
  induction l as [|x l IH]; csimpl; [done|].
  rewrite !filter_cons. case_decide; simpl; by rewrite IH.
Qed.

Lemma jobs_of_candidates tid (jobs : list Job) (solutions : list Sample) :
  job_task <$> jobs = s_task_id <$> solutions →
  length (jobs_of tid jobs) = candidates tid solutions.
Proof.
  intros Heq. unfold jobs_of, candidates.
  pose proof (filter_fmap_length job_task (λ t, t = tid) jobs) as H1.
  pose proof (filter_fmap_length s_task_id (λ t, t = tid) solutions) as H2.
  simpl in H1, H2. by rewrite <-H1, <-H2, Heq.
Qed.


(** ** The summary: which [k] are reported *)


Lemma included_ge (include : Z → bool) (total correct : list Z) (k : Z) :
  k ∈ ks →
  (∀ k, include k = true ↔ Forall (λ n, (k ≤ n)%Z) total) →
  (is_Some (dict_get (pass_key k) (pass_at_k_dict include total correct))
     ↔ Forall (λ n, (k ≤ n)%Z) total)
  ∧ ∀ v, dict_get (pass_key k) (pass_at_k_dict include total correct) = Some v →
         v = mean (estimate_pass_at_k total correct k).
Proof.
  intros Hk Hinc. rewrite pass_at_k_dict_get by done. rewrite <-Hinc.
  destruct (include k); split.
  - split; [done|eauto].
  - by intros v [= <-].
  - split; [by intros [? ?]|done].
  - done.
Qed.

(** C2. On a document with at least one task the base summary is printed,
    and it holds [pass@k], for k among 1, 10 and 100, exactly when every
    task's candidate count is at least k; its value is the mean over the
    problems of the estimator applied to the candidate counts and the
    base-suite success counts. *)
Theorem base_pass_at_k_inclusion (results : Results) (w : world) :
  res_eval results ≠ [] →
  Forall plus_in_range (dict_values (res_eval results)) →
  ∃ pass_at_k rest,
    report_pass_at_k results w =
      (Ok (), add_trace w (Print (PStr "Base") :: Print (PPassAtK pass_at_k) :: rest))
    ∧ (∀ k, k ∈ ks →
         (is_Some (dict_get (pass_key k) pass_at_k)
            ↔ Forall (λ n, (k ≤ n)%Z) (totals results))
         ∧ ∀ v, dict_get (pass_key k) pass_at_k = Some v →
                v = mean (estimate_pass_at_k (totals results) (base_corrects results) k))
    ∧ (∀ key, is_Some (dict_get key pass_at_k) → ∃ k, k ∈ ks ∧ key = pass_key k).
Proof.
  intros Hne Hwf. rewrite report_pass_at_k_spec by done. unfold summary_events.
  destruct (np_min_ok (totals results)) as [m Hm].
  { unfold totals, dict_values. by destruct (res_eval results). }
  rewrite Hm. eexists _, _. split; [reflexivity|]. split.
  - intros k Hk. apply included_ge; [done|].
    intros k'. rewrite bool_decide_eq_true. by apply np_min_ge.
  - intros key (k & Hk & -> & _)%pass_at_k_dict_keys. eauto.
Qed.


(** ** The worker count *)

(** C8, as the code has it.  The worker count is the override when one is
    given and otherwise half the processing units, at least one; so it is
    at least one exactly when no override below one is given, and the pool
    rejects a count below one. *)
Theorem resolve_n_workers_spec (flags : Flags) :
  resolve_n_workers flags = default (Z.max 1 (cpu_count / 2)) (parallel flags)
  ∧ ((1 ≤ resolve_n_workers flags)%Z ↔ from_option (λ n, (1 ≤ n)%Z) True (parallel flags))
  ∧ (process_pool_executor (resolve_n_workers flags) = Ok ()
       ↔ (1 ≤ resolve_n_workers flags)%Z).
Proof.
  unfold resolve_n_workers, process_pool_executor.
  destruct (parallel flags) as [n|]; simpl; split_and!; try done;
    try (split; [done|lia]); case_decide; split; try done; lia.
Qed.

(** ** The load path *)

Definition is_print (e : event) : bool :=
  match e with Print _ => true | _ => false end.

(** A program that only prints: its outcome and what it prints do not
    depend on the world it runs in, and the rest of the world is left as
    it is. *)
Definition prints_only {A} (m : M A) : Prop :=
  ∃ (r : result A) (evs : list event),
    forallb is_print evs = true ∧ ∀ w, m w = (r, add_trace w evs).

Lemma prints_only_lift {A} (r : result A) : prints_only (lift r).
Proof. exists r, []. split; [done|]. intros w. unfold lift. by rewrite add_trace_nil. Qed.

Lemma prints_only_ret {A} (a : A) : prints_only (ret a).
Proof. apply (prints_only_lift (Ok a)). Qed.

Lemma prints_only_print (p : printed) : prints_only (print p).
Proof. by exists (Ok ()), [Print p]. Qed.

Lemma prints_only_bind {A B} (m : M A) (k : A → M B) :
  prints_only m → (∀ a, prints_only (k a)) → prints_only (m ≫= k).
Proof.
  intros (r & evs & Hevs & Hm) Hk. destruct r as [a|e].
  - destruct (Hk a) as (r' & evs' & Hevs' & Hka).
    exists r', (evs ++ evs'). split.
    + by rewrite forallb_app, Hevs, Hevs'.
    + intros w. erewrite bind_ok by apply Hm. by rewrite Hka, add_trace_app.
  - exists (Raise e), evs. split; [done|].
    intros w. by erewrite bind_raise by apply Hm.
Qed.

Lemma report_pass_at_k_prints (results : Results) :
  prints_only (report_pass_at_k results).
Proof.
  unfold report_pass_at_k.
  apply prints_only_bind; [apply prints_only_lift|]. intros [base_correct new_correct].
  apply prints_only_bind; [apply prints_only_lift|]. intros pass_at_k.
  apply prints_only_bind; [apply prints_only_print|]. intros _.
  apply prints_only_bind; [apply prints_only_print|]. intros _.
  destruct new_correct; [apply prints_only_ret|].
  apply prints_only_bind; [apply prints_only_print|]. intros _.
  apply prints_only_print.
Qed.

(** With a result document at the result path and no force flag, a run is
    the load message followed by the summary of the stored document. *)
Lemma evaluate_humaneval_load as_completed flags w rp r :
  derive_result_path flags (fs w) = Ok rp →
  fs w !! rp = Some (File (Json r)) →
  i_just_wanna_run flags = false →
  evaluate_humaneval as_completed flags w =
    report_pass_at_k (compatible_eval_result r)
      (add_trace w [Print (PStr ("Load from " +:+ rp))]).
Proof.
  intros Hrp Hfile Hforce. unfold evaluate_humaneval.
  erewrite bind_ok by reflexivity. cbv beta.
  erewrite bind_ok by (unfold lift; by rewrite Hrp). cbv beta.
  unfold os_path_isfile at 1. rewrite Hfile, Hforce. simpl.
  erewrite bind_ok; cbv beta.
  2:{ erewrite bind_ok by apply print_add_trace. cbv beta.
      erewrite bind_ok; [reflexivity|].
      unfold json_load. erewrite bind_ok by reflexivity. cbv beta.
      erewrite bind_ok by (unfold lift, read_file; simpl; by rewrite Hfile).
      reflexivity. }
  erewrite bind_ok; cbv beta.
  2:{ unfold overwrite_prompt. erewrite bind_ok by reflexivity. cbv beta.
      rewrite Hforce, andb_false_r. reflexivity. }
  erewrite bind_ok; cbv beta.
  2:{ unfold persist. erewrite bind_ok by reflexivity. cbv beta.
      unfold os_path_isfile. simpl. rewrite Hfile. reflexivity. }
  reflexivity.
Qed.

(** C5. With a result document stored at the derived result path and the
    force flag not set, the run prints the load message and the summary of
    the stored document, whose outcome and text are a function of the
    document alone.  Nothing but printing happens: no solution is executed,
    no check is submitted and the files are left as they are.  Running
    again on the world so reached gives the same outcome and prints the
    same text. *)
Theorem load_existing_results as_completed flags w rp r :
  derive_result_path flags (fs w) = Ok rp →
  fs w !! rp = Some (File (Json r)) →
  i_just_wanna_run flags = false →
  ∃ (res : result unit) (stats : list event),
    (∀ w0, report_pass_at_k (compatible_eval_result r) w0 = (res, add_trace w0 stats))
    ∧ forallb is_print stats = true
    ∧ let printed := Print (PStr ("Load from " +:+ rp)) :: stats in
      evaluate_humaneval as_completed flags w = (res, add_trace w printed)
      ∧ fs (add_trace w printed) = fs w
      ∧ evaluate_humaneval as_completed flags (add_trace w printed) =
          (res, add_trace (add_trace w printed) printed).
Proof.
  intros Hrp Hfile Hforce.
  destruct (report_pass_at_k_prints (compatible_eval_result r))
    as (res & stats & Hprints & Hreport).
  exists res, stats. split; [done|]. split; [done|]. cbv zeta. split_and!.
  - by rewrite (evaluate_humaneval_load _ _ _ _ _ Hrp Hfile Hforce), Hreport, add_trace_app.
  - done.
  - by rewrite (evaluate_humaneval_load _ _ (add_trace w _) _ _ Hrp Hfile Hforce),
      Hreport, add_trace_app.
Qed.

(** ** The forced path *)

Lemma string_length_app (a b : string) :
  String.length (a +:+ b) = String.length a + String.length b.
Proof. induction a as [|c a IH]; simpl; [done|]. by rewrite IH. Qed.

(** The [k]-th name the backup loop tries, starting from [p]. *)
Fixpoint bak_name (k : nat) (p : string) : string :=
  match k with
  | O => p
  | S k => bak_name k (p +:+ ".bak")
  end.

Lemma bak_name_length k p :
  String.length (bak_name k p) = String.length p + 4 * k.
Proof.
  revert p. induction k as [|k IH]; intros p; simpl; [lia|].
  rewrite IH, string_length_app. simpl. lia.
Qed.

Lemma bak_name_inj p : Inj (=) (=) (λ k, bak_name k p).
Proof.
  intros j k H. apply (f_equal String.length) in H.
  rewrite !bak_name_length in H. lia.
Qed.

Lemma backup_loop_Some fuel f p q :
  backup_loop fuel f p = Some q →
  ∃ k, k < fuel ∧ q = bak_name k p ∧ os_path_isfile f q = false
       ∧ ∀ j, j < k → os_path_isfile f (bak_name j p) = true.
Proof.
  revert p. induction fuel as [|fuel IH]; intros p; simpl; [done|].
  destruct (os_path_isfile f p) eqn:Hp.
  - intros (k & Hk & -> & Hq & Hall)%IH. exists (S k).
    split_and!; [lia|done|done|].
    intros [|j] Hj; simpl; [done|]. apply Hall. lia.
  - intros [= <-]. exists 0. split_and!; [lia|done|done|]. intros j Hj. lia.
Qed.

Lemma backup_loop_None fuel f p :
  backup_loop fuel f p = None →
  ∀ j, j < fuel → os_path_isfile f (bak_name j p) = true.
Proof.
  revert p. induction fuel as [|fuel IH]; intros p; simpl; [intros _ j Hj; lia|].
  destruct (os_path_isfile f p) eqn:Hp; [|done].
  intros H [|j] Hj; simpl; [done|]. apply (IH _ H). lia.
Qed.

(** The backup loop ends: the names it tries are pairwise distinct, so
    they cannot all be files of a finite file system. *)
Lemma backup_path_total f rp : is_Some (backup_path f rp).
Proof.
  unfold backup_path.
  destruct (backup_loop _ _ _) as [q|] eqn:Hloop; [eauto|].
  exfalso. pose proof (backup_loop_None _ _ _ Hloop) as Hall.
  set (names := (λ k, bak_name k (rp +:+ ".bak")) <$> seq 0 (S (size f))).
  assert (list_to_set names ⊆ (dom f : gset string)) as Hsub.
  { intros x. rewrite elem_of_list_to_set. unfold names.
    rewrite list_elem_of_fmap. intros (k & -> & Hk). apply elem_of_seq in Hk.
    rewrite elem_of_dom. specialize (Hall k ltac:(lia)).
    unfold os_path_isfile in Hall. destruct (f !! _); [eauto|done]. }
  apply subseteq_size in Hsub. rewrite size_dom in Hsub.
  rewrite size_list_to_set in Hsub.
  - unfold names in Hsub. rewrite length_fmap, length_seq in Hsub. lia.
  - apply NoDup_fmap_2; [apply bak_name_inj|apply NoDup_seq].
Qed.

Lemma backup_path_spec f rp :
  ∃ k, backup_path f rp = Some (bak_name k (rp +:+ ".bak"))
       ∧ os_path_isfile f (bak_name k (rp +:+ ".bak")) = false
       ∧ ∀ j, j < k → os_path_isfile f (bak_name j (rp +:+ ".bak")) = true.
Proof.
  destruct (backup_path_total f rp) as [q Hq]. rewrite Hq.
  apply backup_loop_Some in Hq as (k & _ & -> & Hnf & Hall). eauto.
Qed.


(** Computing the oracle leaves every existing entry of the file system,
    and standard input, as they are. *)
Lemma get_groundtruth_keeps problems hashcode w r w' path n :
  get_groundtruth problems hashcode w = (r, w') →
  fs w !! path = Some n →
  fs w' !! path = Some n ∧ stdin w' = stdin w.
Proof.
  intros Hgt Hpath. destruct (fs w !! cache_file_of hashcode) as [c|] eqn:Hc.
  - rewrite (get_groundtruth_hit _ _ _ _ Hc) in Hgt. by injection Hgt as <- <-.
  - rewrite (get_groundtruth_miss _ _ _ Hc) in Hgt. injection Hgt as <- <-.
    unfold computed_world. simpl. split; [|done].
    rewrite lookup_insert_ne; [done|]. intros <-. congruence.
Qed.

Lemma compute_results_keeps as_completed flags n_workers w results w1 path n :
  compute_results as_completed flags n_workers w = (Ok results, w1) →
  fs w !! path = Some n →
  fs w1 !! path = Some n ∧ stdin w1 = stdin w.
Proof.
  intros (eo & w0 & solutions & st & rem & er & Hgt & _ & _ & _ & _ & _ & _ & _ & _ & ->)
    %compute_results_inv Hpath.
  simpl. by eapply get_groundtruth_keeps.
Qed.

(** The world after [n] prompts, with [rest] left on standard input. *)
Definition prompted (rp : string) (w : world) (rest : list string) (n : nat) : world :=
  {| fs := fs w; clock := clock w; stdin := rest;
     trace := trace w ++ replicate n (Print (PStr (prompt_text rp))) |}.

Lemma ask_decision_spec rp w decision rest n :
  prompt_loop (stdin w) "" = (decision, rest, n) →
  ask_decision rp w = (decision, prompted rp w rest n).
Proof. intros H. unfold ask_decision. by rewrite H. Qed.



Lemma persist_spec results rp w :
  persist results rp w =
    match fs w !! rp with
    | Some (File _) => (Ok (), w)
    | Some Dir => (Raise IsADirectoryError, w)
    | None =>
        (Ok (),
         {| fs := <[rp := File (Json results)]> (fs w);
            clock := clock w; stdin := stdin w; trace := trace w |})
    end.
Proof.
  unfold persist. erewrite bind_ok by reflexivity. cbv beta.
  unfold os_path_isfile, json_dump.
  destruct (fs w !! rp) as [[c|]|] eqn:Hrp; simpl; [done| |].
  - erewrite bind_ok by reflexivity. cbv beta.
    erewrite bind_raise; [done|]. unfold lift, write_file. by rewrite Hrp.
  - erewrite bind_ok by reflexivity. cbv beta.
    erewrite bind_ok; [reflexivity|]. unfold lift, write_file. by rewrite Hrp.
Qed.

(** A forced run on an existing result file: the fresh computation, then
    the prompt, the write and the summary. *)
Lemma evaluate_humaneval_forced as_completed flags w rp old results w1 :
  i_just_wanna_run flags = true →
  derive_result_path flags (fs w) = Ok rp →
  fs w !! rp = Some (File old) →
  compute_results as_completed flags (resolve_n_workers flags) w = (Ok results, w1) →
  evaluate_humaneval as_completed flags w =
    (decision ← ask_decision rp;
     (if decide (str_lower decision = "y") then backup rp else ret ());;
     persist results rp;;
     report_pass_at_k results) w1.
Proof.
  intros Hforce Hrp Hfile Hrun.
  destruct (compute_results_keeps _ _ _ _ _ _ _ _ Hrun Hfile) as [Hfile1 _].
  unfold evaluate_humaneval.
  erewrite bind_ok by reflexivity. cbv beta.
  erewrite bind_ok by (unfold lift; by rewrite Hrp). cbv beta.
  rewrite Hforce, andb_false_r.
  erewrite bind_ok by exact Hrun. cbv beta.
  unfold overwrite_prompt, mbind, M_bind, bind, get_fs, os_path_isfile.
  rewrite Hfile1, Hforce. simpl.
  destruct (ask_decision rp w1) as [[d|e] w2]; [|done].
  by destruct (decide (str_lower d = "y")).
Qed.


(** * Further properties of [evaluate_humaneval] *)

(** ** The prompt *)

(** A line that ends the prompt loop: y or n, in either case. *)
Definition is_answer (line : string) : Prop := str_lower line ∈ ["y"; "n"].

#[local] Instance is_answer_dec line : Decision (is_answer line).
Proof. unfold is_answer. apply _. Defined.

Lemma prompt_loop_from (lines : list string) (decision : string) :
  ¬ is_answer decision →
  prompt_loop lines decision =
    match list_find is_answer lines with
    | Some (i, d) => (Ok d, drop (S i) lines, S i)
    | None => (Raise EOFError, [], S (length lines))
    end.
Proof.
  revert decision. induction lines as [|l lines IH]; intros decision Hd.
  - simpl. by rewrite bool_decide_eq_false_2.
  - cbn [prompt_loop list_find]. rewrite bool_decide_eq_false_2 by done.
    destruct (decide (is_answer l)) as [Hl|Hl].
    + destruct lines; simpl; by rewrite bool_decide_eq_true_2.
    + rewrite (IH l Hl). by destruct (list_find is_answer lines) as [[i d]|].
Qed.

(** X1. The prompt loop takes the first line of standard input that is y
    or n in either case as the decision: every line before it is answered
    by another prompt, the lines after it stay on standard input.  When no
    line is an answer the loop prompts once more than there are lines and
    ends with [EOFError]. *)
Theorem prompt_loop_first_answer (lines : list string) :
  prompt_loop lines "" =
    match list_find is_answer lines with
    | Some (i, d) => (Ok d, drop (S i) lines, S i)
    | None => (Raise EOFError, [], S (length lines))
    end.
Proof.
  apply prompt_loop_from. unfold is_answer. simpl.
  rewrite !elem_of_cons, elem_of_nil. by intros [|[|]].
Qed.

(** ** A declined overwrite *)

(** X2. A forced run on an existing result file that is answered with
    anything but y (that is, with n) does not stop: it prints the summary
    of the freshly computed results, and these are not stored, the file at
    the result path stays as it was. *)
Theorem forced_run_declined as_completed flags w rp old results w1 d rest n :
  i_just_wanna_run flags = true →
  derive_result_path flags (fs w) = Ok rp →
  fs w !! rp = Some (File old) →
  compute_results as_completed flags (resolve_n_workers flags) w = (Ok results, w1) →
  prompt_loop (stdin w) "" = (Ok d, rest, n) →
  str_lower d ≠ "y" →
  str_lower d = "n"
  ∧ evaluate_humaneval as_completed flags w =
      report_pass_at_k results (prompted rp w1 rest n)
  ∧ ∃ res stats,
      evaluate_humaneval as_completed flags w =
        (res, add_trace (prompted rp w1 rest n) stats)
      ∧ forallb is_print stats = true
      ∧ fs (add_trace (prompted rp w1 rest n) stats) = fs w1
      ∧ fs w1 !! rp = Some (File old).
Proof.
  intros Hforce Hrp Hfile Hrun Hloop Hd.
  destruct (compute_results_keeps _ _ _ _ _ _ _ _ Hrun Hfile) as [Hfile1 Hstdin].
  assert (str_lower d = "n") as Hn.
  { rewrite prompt_loop_from in Hloop.
    - destruct (list_find is_answer (stdin w)) as [[i d']|] eqn:Hfind; [|done].
      injection Hloop as -> _ _.
      apply list_find_Some in Hfind as (_ & Hans & _). unfold is_answer in Hans.
      rewrite !elem_of_cons, elem_of_nil in Hans. by destruct Hans as [|[|]].
    - unfold is_answer. simpl. rewrite !elem_of_cons, elem_of_nil. by intros [|[|]]. }
  assert (evaluate_humaneval as_completed flags w =
            report_pass_at_k results (prompted rp w1 rest n)) as Hev.
  { rewrite (evaluate_humaneval_forced _ _ _ _ _ _ _ Hforce Hrp Hfile Hrun).
    rewrite <-Hstdin in Hloop.
    erewrite bind_ok by (by apply ask_decision_spec). cbv beta.
    rewrite decide_False by done.
    erewrite bind_ok by reflexivity. cbv beta.
    erewrite bind_ok; [reflexivity|].
    rewrite persist_spec. cbn [prompted fs]. by rewrite Hfile1. }
  split; [done|]. split; [done|].
  destruct (report_pass_at_k_prints results) as (res & stats & Hprints & Hreport).
  exists res, stats. by rewrite Hev, Hreport.
Qed.

(** ** Samples that cannot be submitted *)

(** A sample the loop can submit: its task is a problem with an oracle
    entry, and it carries a solution or a completion. *)
Definition submittable (problems : dict Problem) (eo : dict Oracle) (s : Sample)
    : Prop :=
  is_Some (dict_get (s_task_id s) problems)
  ∧ is_Some (dict_get (s_task_id s) eo)
  ∧ (is_Some (s_solution s) ∨ is_Some (s_completion s)).

Lemma submit_step_outcome problems eo flags st s :
  match submit_step problems eo flags st s with
  | Ok _ => submittable problems eo s
  | Raise e => e = KeyError ∧ ¬ submittable problems eo s
  end.
Proof.
  unfold submit_step, submittable, dict_item, mbind, result_bind.
  destruct (s_solution s) as [sol|]; simpl;
    destruct (dict_get (s_task_id s) problems) as [p|]; simpl;
    destruct (s_completion s) as [c|]; simpl;
    destruct (dict_get (s_task_id s) eo) as [o|]; simpl;
    first [ by eauto 10
          | split; [done|]; intros (Hp & Ho & Hs);
            first [ by destruct Hp | by destruct Ho
                  | by destruct Hs as [[? ?]|[? ?]] ] ].
Qed.

(** X3. The submission loop gets through the samples exactly when every
    sample names a problem that has an oracle entry and carries a solution
    or a completion; it then has counted every sample.  Otherwise it stops
    at the first sample that does not, with [KeyError]. *)
Theorem submit_all_outcome problems eo flags st solutions :
  match submit_all problems eo flags st solutions with
  | Ok st' =>
      Forall (submittable problems eo) solutions
      ∧ n_samples st' = n_samples st + length solutions
  | Raise e =>
      e = KeyError
      ∧ ∃ before s after,
          solutions = before ++ s :: after
          ∧ Forall (submittable problems eo) before
          ∧ ¬ submittable problems eo s
  end.
Proof.
  revert st. unfold submit_all.
  induction solutions as [|s solutions IH]; intros st; cbn [rfold].
  - split; [done|]. simpl. lia.
  - pose proof (submit_step_outcome problems eo flags st s) as Hstep.
    destruct (submit_step problems eo flags st s) as [[st1 job]|e] eqn:Hs; simpl.
    + apply submit_step_spec in Hs as (_ & _ & Hn & _).
      specialize (IH st1).
      destruct (rfold _ st1 solutions) as [st'|e].
      * destruct IH as [Hall Hcount]. split; [by constructor|].
        rewrite Hcount, Hn. simpl. lia.
      * destruct IH as (-> & before & s' & after & -> & Hbefore & Hs').
        split; [done|]. exists (s :: before), s', after.
        split_and!; [done|by constructor|done].
    + destruct Hstep as [-> Hbad]. split; [done|].
      by exists [], s, solutions.
Qed.

(** ** The identifiers still awaited *)

(** X4. While the results come in, in whatever order, [remainings] holds
    exactly the identifiers of the submitted checks that have not completed
    yet, one per pending check; no [remove] fails, and once every check has
    completed the set is empty. *)
Theorem remainings_track_pending problems eo flags solutions st finished pending :
  dataset_consistent problems →
  submit_all problems eo flags dispatch_init solutions = Ok st →
  check_submitted problems st = Ok () →
  finished ++ pending ≡ₚ futures st →
  ∃ er,
    collect st finished = Ok (list_to_set (j_identifier <$> pending), er)
    ∧ size (list_to_set (j_identifier <$> pending) : gset string) = length pending
    ∧ (pending = [] → collect st finished = Ok (∅, er)).
Proof.
  intros Hcons Hsub Hchk Hperm.
  destruct (submit_all_spec _ _ _ _ _ _ Hcons Hsub)
    as (new & Hfut & Hn & Hrem & Hids & _).
  simpl in *. subst new.
  assert (NoDup (j_identifier <$> futures st)) as Hnd.
  { rewrite Hids. apply size_list_to_set_NoDup.
    unfold check_submitted in Hchk. case_decide as Hsz; [|done].
    rewrite length_fmap, <-Hn, Hsz, Hrem. f_equal. set_solver. }
  rewrite <-Hperm, fmap_app in Hnd.
  apply NoDup_app in Hnd as (Hnd1 & Hdisj & Hnd2).
  assert (remainings st =
            list_to_set (j_identifier <$> finished)
              ∪ list_to_set (j_identifier <$> pending)) as Hrem'.
  { rewrite Hrem, <-Hids, <-Hperm, fmap_app. set_solver. }
  destruct (collect_spec finished (remainings st) []) as (er & Hcol & _ & _).
  { done. }
  { intros j Hj. rewrite Hrem'. apply elem_of_union_l, elem_of_list_to_set.
    by apply list_elem_of_fmap_2. }
  { apply NoDup_nil_2. }
  assert (collect st finished = Ok (list_to_set (j_identifier <$> pending), er))
    as Hcollect.
  { unfold collect. etrans; [exact Hcol|]. do 2 f_equal. rewrite Hrem'.
    apply set_eq. intros x.
    rewrite elem_of_difference, elem_of_union, !elem_of_list_to_set.
    split; [tauto|]. intros Hx. split; [tauto|]. intros Hx'. by apply (Hdisj x). }
  exists er. split_and!.
  - done.
  - rewrite size_list_to_set by done. by rewrite length_fmap.
  - intros ->. exact Hcollect.
Qed.

(** ** The shape of freshly computed results *)

Lemma collect_fold_wf completed rem0 er0 rem er :
  dict_wf er0 →
  rfold collect_step (rem0, er0) completed = Ok (rem, er) →
  dict_wf er.
Proof.
  revert rem0 er0. induction completed as [|j completed IH]; intros rem0 er0 Hwf;
    cbn [rfold].
  - by intros [= _ <-].
  - unfold collect_step at 1. case_decide; [|done]. cbn [rbind].
    apply IH. by apply dict_set_wf.
Qed.

(** With the two assertions passed, the tasks that have a candidate are
    the problems. *)
Lemma submitted_tasks problems eo flags solutions st :
  dict_wf problems →
  submit_all problems eo flags dispatch_init solutions = Ok st →
  check_submitted problems st = Ok () →
  ∀ tid, tid ∈ dict_keys problems ↔ 0 < candidates tid solutions.
Proof.
  intros Hwf (Hn & Hrem & Htot & Hget & Hdom & Hsub)%submit_all_init Hchk tid.
  assert (dom (completion_id st) = list_to_set (dict_keys problems)) as Heq.
  { apply set_subseteq_size_eq; [done|]. rewrite size_list_to_set by done.
    unfold check_submitted in Hchk. repeat case_decide; try done.
    rewrite size_dom. unfold dict_len, dict_keys in *. rewrite length_fmap. lia. }
  rewrite candidates_pos.
  rewrite <-(elem_of_list_to_set (C:=gset string) tid (s_task_id <$> solutions)).
  rewrite <-Hdom, Heq. by rewrite elem_of_list_to_set.
Qed.

(** A fresh computation that returns: the entry of every task in terms of
    the jobs submitted for it. *)
Lemma fresh_results_entries as_completed flags n_workers w results w' :
  dataset_consistent get_human_eval_plus →
  (∀ l, as_completed l ≡ₚ l) →
  compute_results as_completed flags n_workers w = (Ok results, w') →
  ∃ eo solutions st,
    submit_all get_human_eval_plus eo flags dispatch_init solutions = Ok st
    ∧ check_submitted get_human_eval_plus st = Ok ()
    ∧ job_task <$> futures st = s_task_id <$> solutions
    ∧ Forall (λ j, j_base_only j = base_only flags) (futures st)
    ∧ dict_wf (res_eval results)
    ∧ ∀ tid, dict_get tid (res_eval results) =
             match jobs_of tid (futures st) with
             | [] => None
             | js => Some (expected_entry flags js)
             end.
Proof.
  intros Hcons Hperm Hrun.
  apply compute_results_inv in Hrun
    as (eo & w1 & solutions & st & rem & er & Hgt & Hn & Hload & Hsub & Hchk
        & Hcol & Hagg & _).
  destruct (dispatch_spec _ _ flags _ _ _ Hcons Hsub Hchk (Hperm (futures st)))
    as (er1 & Hcol1 & Hagg1 & _ & _ & Hget1).
  rewrite Hcol1 in Hcol. injection Hcol as <- <-.
  rewrite Hagg1 in Hagg. injection Hagg as Hev.
  destruct (submit_all_spec _ _ _ _ _ _ Hcons Hsub)
    as (new & Hfut & _ & _ & _ & Htasks & Hjobs & _).
  simpl in Hfut. subst new.
  exists eo, solutions, st. split_and!; try done.
  - eapply Forall_impl; [exact Hjobs|]. by intros j [_ ?].
  - rewrite <-Hev. unfold dict_wf. rewrite dict_keys_map.
    eapply (collect_fold_wf _ _ []); [apply NoDup_nil_2|exact Hcol1].
  - intros tid. by rewrite <-Hev, Hget1.
Qed.

(** An entry as a fresh computation builds it: at least one candidate, as
    many base results as candidates, and as many plus results unless the
    run is base-only, which has none. *)
Definition entry_shape (flags : Flags) (entry : TaskResult) : Prop :=
  (1 ≤ nfiles entry)%Z
  ∧ nfiles entry = Z.of_nat (length (t_base entry))
  ∧ length (t_plus entry) = if base_only flags then 0 else length (t_base entry).

Lemma plus_of_length flags (js : list Job) :
  Forall (λ j, j_base_only j = base_only flags) js →
  length (plus_of flags (future_result <$> js)) =
    if base_only flags then 0 else length js.
Proof.
  unfold plus_of. destruct (base_only flags) eqn:Hbo; simpl; [done|].
  induction 1 as [|j js Hj _ IH]; csimpl; [done|].
  rewrite Hj. simpl. by rewrite IH.
Qed.

Lemma expected_entry_shape flags (js : list Job) :
  js ≠ [] →
  Forall (λ j, j_base_only j = base_only flags) js →
  entry_shape flags (expected_entry flags js).
Proof.
  intros Hne Hbo. unfold entry_shape, expected_entry. simpl.
  rewrite plus_of_length by done. rewrite !length_fmap. split_and!; [|done|done].
  destruct js; [done|]. simpl. lia.
Qed.

Lemma fresh_shape as_completed flags n_workers w results w' :
  dataset_consistent get_human_eval_plus →
  dict_wf get_human_eval_plus →
  (∀ l, as_completed l ≡ₚ l) →
  compute_results as_completed flags n_workers w = (Ok results, w') →
  dict_wf (res_eval results)
  ∧ (∀ tid, is_Some (dict_get tid (res_eval results))
            ↔ tid ∈ dict_keys get_human_eval_plus)
  ∧ dict_len (res_eval results) = dict_len get_human_eval_plus
  ∧ Forall (entry_shape flags) (dict_values (res_eval results)).
Proof.
  intros Hcons Hwf Hperm Hrun.
  destruct (fresh_results_entries _ _ _ _ _ _ Hcons Hperm Hrun)
    as (eo & solutions & st & Hsub & Hchk & Htasks & Hbo & Hwf' & Hget).
  pose proof (submitted_tasks _ _ _ _ _ Hwf Hsub Hchk) as Hkeys.
  assert (∀ tid, is_Some (dict_get tid (res_eval results))
                 ↔ tid ∈ dict_keys get_human_eval_plus) as Hdom.
  { intros tid. rewrite Hkeys, <-(jobs_of_candidates tid _ _ Htasks), Hget.
    destruct (jobs_of tid (futures st)); simpl.
    - split; [by intros [? ?]|lia].
    - split; [lia|eauto]. }
  split_and!; [done|done| |].
  - unfold dict_len.
    rewrite <-(length_fmap fst (res_eval results)).
    rewrite <-(length_fmap fst get_human_eval_plus).
    apply Permutation_length, NoDup_Permutation; [done..|].
    intros tid. fold (dict_keys (res_eval results)).
    fold (dict_keys get_human_eval_plus). rewrite <-Hdom.
    rewrite <-not_eq_None_Some, dict_get_None.
    split; [by intros ? ?|apply dec_stable].
  - unfold dict_values. apply Forall_fmap, Forall_forall. intros [tid entry] Hin.
    simpl. apply dict_get_elem in Hin; [|done]. rewrite Hget in Hin.
    destruct (jobs_of tid (futures st)) as [|j js] eqn:Hjs; [done|].
    injection Hin as <-. apply expected_entry_shape; [done|].
    rewrite <-Hjs. apply Forall_forall. intros j' [_ Hj']%list_elem_of_filter.
    by eapply Forall_forall in Hbo.
Qed.

(** X5. Freshly computed results hold exactly one entry per problem, for
    whatever order the checks completed in; every entry has at least one
    candidate, as many base results as [nfiles] says, and as many plus
    results, or none when the run is base-only. *)
Theorem fresh_results_shape as_completed flags n_workers w results w' :
  dataset_consistent get_human_eval_plus →
  dict_wf get_human_eval_plus →
  (∀ l, as_completed l ≡ₚ l) →
  compute_results as_completed flags n_workers w = (Ok results, w') →
  dict_wf (res_eval results)
  ∧ (∀ tid, is_Some (dict_get tid (res_eval results))
            ↔ tid ∈ dict_keys get_human_eval_plus)
  ∧ dict_len (res_eval results) = dict_len get_human_eval_plus
  ∧ Forall (entry_shape flags) (dict_values (res_eval results)).
Proof. apply fresh_shape. Qed.

(** ** The summary of fresh results *)

Lemma entry_shape_in_range flags (entry : TaskResult) :
  entry_shape flags entry → plus_in_range entry.
Proof.
  unfold entry_shape, plus_in_range. intros (_ & _ & ->).
  destruct (base_only flags); lia.
Qed.

Lemma fresh_new_corrects flags (values : list TaskResult) :
  Forall (entry_shape flags) values →
  filter (λ res, truthy (t_plus res)) values =
    if base_only flags then [] else values.
Proof.
  induction 1 as [|entry values (Hn & Hb & Hp) _ IH]; [by destruct (base_only flags)|].
  rewrite filter_cons, IH. destruct (base_only flags).
  - destruct (t_plus entry); [done|]. simpl in Hp. lia.
  - destruct (t_plus entry); [|done]. simpl in Hp. lia.
Qed.

(** X6. On freshly computed results for a data set with at least one
    problem the summary never raises.  It always reports pass@1 for the
    base suite; a base-only run prints nothing more, every other run also
    prints the second dictionary, with pass@1 in it. *)
Theorem fresh_results_summary as_completed flags n_workers w results w' w0 :
  dataset_consistent get_human_eval_plus →
  dict_wf get_human_eval_plus →
  get_human_eval_plus ≠ [] →
  (∀ l, as_completed l ≡ₚ l) →
  compute_results as_completed flags n_workers w = (Ok results, w') →
  ∃ pass_at_k rest,
    report_pass_at_k results w0 =
      (Ok (), add_trace w0 (Print (PStr "Base") :: Print (PPassAtK pass_at_k) :: rest))
    ∧ dict_get (pass_key 1) pass_at_k =
        Some (mean (estimate_pass_at_k (totals results) (base_corrects results) 1))
    ∧ (base_only flags = true → rest = [])
    ∧ (base_only flags = false →
         ∃ plus_d,
           rest = [Print (PStr "Base + Extra"); Print (PPassAtK plus_d)]
           ∧ dict_get (pass_key 1) plus_d =
               Some (mean (estimate_pass_at_k (totals results)
                             (new_corrects results) 1))).
Proof.
  intros Hcons Hwf Hne Hperm Hrun.
  destruct (fresh_shape _ _ _ _ _ _ Hcons Hwf Hperm Hrun)
    as (_ & _ & Hlen & Hshape).
  assert (res_eval results ≠ []) as Hne'.
  { intros Heq. rewrite Heq in Hlen. by destruct get_human_eval_plus. }
  assert (Forall plus_in_range (dict_values (res_eval results))) as Hrange.
  { eapply Forall_impl; [exact Hshape|]. apply entry_shape_in_range. }
  assert (Forall (λ n, (1 ≤ n)%Z) (totals results)) as Hone.
  { unfold totals. apply Forall_fmap. eapply Forall_impl; [exact Hshape|].
    by intros entry (? & _). }
  rewrite report_pass_at_k_spec by done. unfold summary_events.
  destruct (np_min_ok (totals results)) as [m Hm].
  { unfold totals, dict_values. by destruct (res_eval results). }
  rewrite Hm. eexists _, _. split; [reflexivity|]. split_and!.
  - rewrite pass_at_k_dict_get by set_solver.
    rewrite bool_decide_eq_true_2; [done|]. by apply (np_min_ge _ _ _ Hm).
  - intros Hbo. unfold new_corrects.
    rewrite (fresh_new_corrects flags) by done. by rewrite Hbo.
  - intros Hbo. unfold new_corrects at 1.
    rewrite (fresh_new_corrects flags) by done. rewrite Hbo.
    assert (truthy (both_count <$> dict_values (res_eval results)) = true) as ->.
    { unfold dict_values. by destruct (res_eval results). }
    eexists. split; [reflexivity|].
    rewrite pass_at_k_dict_get by set_solver.
    by rewrite (proj2 (np_all_ge_Forall _ _) Hone).
Qed.

(** ** The counts handed to the estimator *)

Lemma both_count_le_base (res : TaskResult) :
  (0 ≤ both_count res ≤ base_correct_of res)%Z.
Proof.
  unfold both_count, base_correct_of. split; [lia|].
  apply inj_le. generalize (t_base res) as b. generalize (t_plus res) as p.
  induction p as [|x p IH]; intros [|y b]; simpl; try lia.
  rewrite !filter_cons. specialize (IH b).
  destruct (decide (both_pass (x, y))) as [[_ Hy]|Hn]; simpl in *.
  - rewrite decide_True by done. simpl. lia.
  - case_decide; simpl; lia.
Qed.

Lemma base_correct_le_length (res : TaskResult) :
  (base_correct_of res ≤ Z.of_nat (length (t_base res)))%Z.
Proof. unfold base_correct_of. apply inj_le, length_filter. Qed.

(** X7. For every task of freshly computed results the counts the summary
    hands to the estimator are ordered: the number of candidates passing
    both suites is at most the number passing the base suite, which is at
    most the number of candidates. *)
Theorem fresh_results_counts as_completed flags n_workers w results w' :
  dataset_consistent get_human_eval_plus →
  dict_wf get_human_eval_plus →
  (∀ l, as_completed l ≡ₚ l) →
  compute_results as_completed flags n_workers w = (Ok results, w') →
  Forall (λ entry, (0 ≤ both_count entry ≤ base_correct_of entry)%Z
                   ∧ (base_correct_of entry ≤ nfiles entry)%Z)
    (dict_values (res_eval results))
  ∧ Forall2 (λ c n, (0 ≤ c ≤ n)%Z) (base_corrects results) (totals results).
Proof.
  intros Hcons Hwf Hperm Hrun.
  destruct (fresh_shape _ _ _ _ _ _ Hcons Hwf Hperm Hrun)
    as (_ & _ & _ & Hshape).
  split.
  - eapply Forall_impl; [exact Hshape|]. intros entry (_ & -> & _).
    split; [apply both_count_le_base|apply base_correct_le_length].
  - unfold base_corrects, totals. apply Forall2_fmap, Forall_Forall2_diag.
    eapply Forall_impl; [exact Hshape|]. intros entry (_ & -> & _).
    pose proof (both_count_le_base entry). pose proof (base_correct_le_length entry).
    lia.
Qed.

(** ** A fresh run and the next one *)

(** The oracle step leaves the files as they are or adds the cache file at
    a free path. *)
Lemma get_groundtruth_fs problems hashcode w r w' :
  get_groundtruth problems hashcode w = (r, w') →
  fs w' = fs w
  ∨ (fs w !! cache_file_of hashcode = None
     ∧ ∃ eo, fs w' = <[cache_file_of hashcode := File (Pickled eo)]> (fs w)).
Proof.
  intros Hgt. destruct (fs w !! cache_file_of hashcode) as [c|] eqn:Hc.
  - rewrite (get_groundtruth_hit _ _ _ _ Hc) in Hgt. injection Hgt as <- <-. by left.
  - rewrite (get_groundtruth_miss _ _ _ Hc) in Hgt. injection Hgt as <- <-.
    right. split; [done|]. by eexists.
Qed.

Lemma compute_results_fs as_completed flags n_workers w results w1 :
  compute_results as_completed flags n_workers w = (Ok results, w1) →
  fs w1 = fs w
  ∨ (fs w !! cache_file_of get_human_eval_plus_hash = None
     ∧ ∃ eo, fs w1 =
               <[cache_file_of get_human_eval_plus_hash := File (Pickled eo)]> (fs w)).
Proof.
  intros (eo & w0 & solutions & st & rem & er & Hgt & _ & _ & _ & _ & _ & _ & _ & _ & ->)
    %compute_results_inv.
  simpl. by eapply get_groundtruth_fs.
Qed.


(** ** A pool without workers *)

(** X9. With a worker count of zero or less the fresh computation fails
    with [ValueError] when the pool is created: after the oracle has been
    loaded or computed and cached, and before [Reading samples...] is
    printed or any sample is read. *)
Theorem compute_results_no_workers as_completed flags n_workers w :
  (n_workers ≤ 0)%Z →
  ∃ r w1,
    get_groundtruth get_human_eval_plus get_human_eval_plus_hash w = (r, w1)
    ∧ compute_results as_completed flags n_workers w =
        (match r with Ok _ => Raise ValueError | Raise e => Raise e end, w1).
Proof.
  intros Hn.
  destruct (get_groundtruth get_human_eval_plus get_human_eval_plus_hash w)
    as [[eo|e] w1] eqn:Hgt; unfold compute_results.
  - exists (Ok eo), w1. split; [done|].
    erewrite bind_ok by exact Hgt. cbv beta.
    erewrite bind_ok by reflexivity. cbv beta.
    erewrite bind_raise; [reflexivity|].
    unfold lift, process_pool_executor. by rewrite decide_True.
  - exists (Raise e), w1. split; [done|]. by erewrite bind_raise by exact Hgt.
Qed.

(** ** The backup name *)

(** X10. For every file system and result path the backup loop ends.  The
    name it finds is the result path followed by one more [.bak] than the
    number of names it passed over, each of which is a file, so it appends
    at most one [.bak] more than the file system has entries; the name
    found is not a file and is longer than the result path. *)
Theorem backup_path_bound (f : gmap string (node stored)) (rp : string) :
  ∃ k, k ≤ size f
       ∧ backup_path f rp = Some (bak_name k (rp +:+ ".bak"))
       ∧ String.length (bak_name k (rp +:+ ".bak")) = String.length rp + 4 * S k
       ∧ os_path_isfile f (bak_name k (rp +:+ ".bak")) = false
       ∧ ∀ j, j < k → os_path_isfile f (bak_name j (rp +:+ ".bak")) = true.
Proof.
  destruct (backup_path_total f rp) as [q Hq]. rewrite Hq.
  apply backup_loop_Some in Hq as (k & Hk & -> & Hnf & Hall).
  exists k. split_and!; [lia|done| |done|done].
  rewrite bak_name_length, string_length_app. simpl. lia.
Qed.

(** ** Strings *)

Lemma string_app_cons (x : ascii) (a b : string) :
  String x a +:+ b = String x (a +:+ b).
Proof. done. Qed.

Lemma string_app_nil_l (a : string) : "" +:+ a = a.
Proof. done. Qed.

Lemma string_app_assoc (a b c : string) : (a +:+ b) +:+ c = a +:+ b +:+ c.
Proof.
  induction a as [|x a IH]; [done|]. by rewrite !string_app_cons, IH.
Qed.

Lemma string_app_nil_r (a : string) : a +:+ "" = a.
Proof. induction a as [|x a IH]; [done|]. by rewrite string_app_cons, IH. Qed.

Lemma string_rev_app_spec (s1 s2 : string) :
  String.rev_app s1 s2 = String.rev s1 +:+ s2.
Proof.
  revert s2. induction s1 as [|x s1 IH]; intros s2; [done|].
  unfold String.rev. simpl. rewrite (IH (String x s2)), (IH (String x "")).
  by rewrite string_app_assoc.
Qed.

Lemma string_rev_cons (x : ascii) (s : string) :
  String.rev (String x s) = String.rev s +:+ String x "".
Proof. unfold String.rev at 1. simpl. apply string_rev_app_spec. Qed.

Lemma string_rev_app (a b : string) :
  String.rev (a +:+ b) = String.rev b +:+ String.rev a.
Proof.
  induction a as [|x a IH].
  - by rewrite string_app_nil_l, string_app_nil_r.
  - by rewrite string_app_cons, !string_rev_cons, IH, string_app_assoc.
Qed.

Lemma string_rev_involutive (s : string) : String.rev (String.rev s) = s.
Proof.
  induction s as [|x s IH]; [done|].
  by rewrite string_rev_cons, string_rev_app, IH.
Qed.

Lemma str_endswith_rev_app (p x : string) : str_endswith_rev p (p +:+ x) = true.
Proof.
  induction p as [|c p IH]; [done|].
  rewrite string_app_cons. simpl. by rewrite decide_True.
Qed.

Lemma str_endswith_app (a suffix : string) : str_endswith (a +:+ suffix) suffix = true.
Proof. unfold str_endswith. rewrite string_rev_app. apply str_endswith_rev_app. Qed.

(** ** The result path *)

(** A pattern without a dot does not see past a dot that follows the
    text. *)
Lemma str_startswith_dot (p x y : string) :
  p ≠ "" →
  (∀ i, String.get i p ≠ Some "."%char) →
  str_startswith (x +:+ String "." y) p = str_startswith x p.
Proof.
  revert x. induction p as [|a p IH]; intros x Hne Hdot; [done|].
  assert (a ≠ "."%char) as Ha by (intros ->; by apply (Hdot 0)).
  destruct x as [|c x]; rewrite ?string_app_nil_l, ?string_app_cons; simpl.
  - by rewrite decide_False.
  - destruct (decide (a = c)); [|done].
    destruct p as [|b p]; [by destruct x|].
    apply IH; [done|]. intros i. apply (Hdot (S i)).
Qed.

Lemma str_startswith_jsonl (c : ascii) (x b : string) :
  str_startswith (String c x +:+ ".jsonl" +:+ b) ".jsonl" =
    str_startswith (String c x) ".jsonl".
Proof.
  rewrite string_app_cons. simpl. destruct (decide ("."%char = c)); [|done].
  apply (str_startswith_dot "jsonl" x ("jsonl" +:+ b)); [done|].
  intros i. by do 6 (destruct i as [|i]; [done|]).
Qed.

Lemma str_startswith_length (s p : string) :
  str_startswith s p = true → String.length p ≤ String.length s.
Proof.
  revert s. induction p as [|a p IH]; intros [|c s]; simpl; try done; try lia.
  destruct (decide (a = c)); [|done]. intros ?%IH. lia.
Qed.

Lemma str_replace_go_jsonl (new a b : string) (skip : nat) :
  skip ≤ String.length a →
  str_replace_go ".jsonl" new skip (a +:+ ".jsonl" +:+ b) =
    str_replace_go ".jsonl" new skip a +:+ new +:+ str_replace_go ".jsonl" new 0 b.
Proof.
  revert skip. induction a as [|c a IH]; intros skip Hskip.
  - destruct skip; [|simpl in Hskip; lia]. by destruct b.
  - destruct skip as [|skip].
    + pose proof (str_startswith_jsonl c a b) as Hstart.
      rewrite string_app_cons in Hstart |- *. cbn [str_replace_go].
      rewrite Hstart.
      destruct (str_startswith (String c a) ".jsonl") eqn:Hs.
      * apply str_startswith_length in Hs. simpl in Hs.
        rewrite IH by (simpl; lia). by rewrite string_app_assoc.
      * rewrite string_app_cons. by rewrite IH by lia.
    + rewrite string_app_cons. cbn [str_replace_go]. apply IH.
      simpl in Hskip. lia.
Qed.

Lemma str_replace_no_dot (old new s : string) :
  str_startswith old "." = true →
  (∀ i, String.get i s ≠ Some "."%char) →
  str_replace s old new = s.
Proof.
  intros Hold. unfold str_replace. induction s as [|c s IH]; intros Hdot; [done|].
  cbn [str_replace_go].
  assert (str_startswith (String c s) old = false) as ->.
  { destruct old as [|a old]; [done|]. simpl in *.
    destruct (decide ("."%char = a)) as [<-|]; [|done].
    rewrite decide_False; [done|]. intros <-. by apply (Hdot 0). }
  rewrite IH; [done|]. intros i. apply (Hdot (S i)).
Qed.

(** X11. The result path of a samples file: for a path ending in [.jsonl]
    that is not a directory, every occurrence of [.jsonl] in the path is
    replaced by [_eval_results.json], the extension and any earlier one
    alike; for a path without a dot before the extension this is the path
    with the extension replaced.  A path that is neither a directory nor
    ends in [.jsonl] stops the run with an [AssertionError] before
    anything is read, printed or written. *)
Theorem derive_result_path_jsonl (flags : Flags) (w : world) (stem : string) :
  os_path_isdir (fs w) (samples flags) = false →
  (samples flags = stem +:+ ".jsonl" →
     derive_result_path flags (fs w) =
       Ok (str_replace stem ".jsonl" "_eval_results.json" +:+ "_eval_results.json")
     ∧ ((∀ i, String.get i stem ≠ Some "."%char) →
          derive_result_path flags (fs w) = Ok (stem +:+ "_eval_results.json")))
  ∧ (str_endswith (samples flags) ".jsonl" = false →
       ∀ as_completed,
         evaluate_humaneval as_completed flags w = (Raise (AssertionError ""), w)).
Proof.
  intros Hdir. split.
  - intros Hs.
    assert (derive_result_path flags (fs w) =
              Ok (str_replace stem ".jsonl" "_eval_results.json"
                    +:+ "_eval_results.json")) as Hrp.
    { unfold derive_result_path. rewrite Hdir, Hs, str_endswith_app.
      unfold str_replace.
      rewrite <-(string_app_nil_r (stem +:+ ".jsonl")), string_app_assoc.
      rewrite str_replace_go_jsonl by lia. simpl. by rewrite string_app_nil_r. }
    split; [done|]. intros Hdot. by rewrite Hrp, str_replace_no_dot.
  - intros Hend as_completed. unfold evaluate_humaneval.
    erewrite bind_ok by reflexivity. cbv beta.
    erewrite bind_raise; [reflexivity|].
    unfold lift, derive_result_path. by rewrite Hdir, Hend.
Qed.

(** ** What a run writes *)

(** A program that leaves every path outside [allowed] as it finds it,
    whatever its outcome. *)
Definition frames {A} (allowed : string → Prop) (m : M A) : Prop :=
  ∀ w r w' path, m w = (r, w') → ¬ allowed path → fs w' !! path = fs w !! path.

Lemma frames_mono {A} (P Q : string → Prop) (m : M A) :
  (∀ p, P p → Q p) → frames P m → frames Q m.
Proof. intros HPQ Hm w r w' path Hrun Hq. eapply Hm; [done|]. auto. Qed.

Lemma frames_bind {A B} (P : string → Prop) (m : M A) (k : A → M B) :
  frames P m → (∀ a, frames P (k a)) → frames P (m ≫= k).
Proof.
  intros Hm Hk w r w' path. unfold mbind, M_bind, bind.
  destruct (m w) as [[a|e] w1] eqn:E.
  - intros Hka Hp. rewrite (Hk a _ _ _ _ Hka Hp). by eapply Hm.
  - intros [= <- <-] Hp. by eapply Hm.
Qed.

Lemma frames_pure {A} (P : string → Prop) (m : M A) :
  (∀ w, fs (m w).2 = fs w) → frames P m.
Proof. intros Hm w r w' path Hrun _. specialize (Hm w). by rewrite Hrun in Hm; simpl in Hm; rewrite Hm. Qed.

Lemma frames_lift {A} P (r : result A) : frames P (lift r).
Proof. by apply frames_pure. Qed.

Lemma frames_ret {A} P (a : A) : frames P (ret a).
Proof. by apply frames_pure. Qed.

Lemma frames_get_fs P : frames P get_fs.
Proof. by apply frames_pure. Qed.

Lemma frames_emit P e : frames P (emit e).
Proof. by apply frames_pure. Qed.

Lemma frames_print P p : frames P (print p).
Proof. by apply frames_pure. Qed.

Lemma frames_mfold {A S} P (step : S → A → M S) (acc : S) (l : list A) :
  (∀ acc x, frames P (step acc x)) → frames P (mfold step acc l).
Proof.
  intros Hstep. revert acc. induction l as [|x l IH]; intros acc; simpl.
  - apply frames_ret.
  - apply (frames_bind P (step acc x)); [apply Hstep|]. intros acc'. apply IH.
Qed.

Lemma frames_get_groundtruth problems hashcode :
  frames (λ p, p = cache_file_of hashcode) (get_groundtruth problems hashcode).
Proof.
  intros w r w' path Hrun Hp.
  destruct (get_groundtruth_fs _ _ _ _ _ Hrun) as [->|(_ & eo & ->)]; [done|].
  rewrite lookup_insert_ne; [done|]. by intros <-.
Qed.

Lemma frames_compute_results as_completed flags n_workers :
  frames (λ p, p = cache_file_of get_human_eval_plus_hash)
    (compute_results as_completed flags n_workers).
Proof.
  unfold compute_results.
  apply frames_bind; [apply frames_get_groundtruth|]. intros eo.
  apply frames_bind; [by apply frames_pure|]. intros date.
  apply frames_bind; [apply frames_lift|]. intros _.
  apply frames_bind; [apply frames_print|]. intros _.
  apply frames_bind; [apply frames_get_fs|]. intros f.
  apply frames_bind; [apply frames_lift|]. intros solutions.
  apply frames_bind.
  { apply frames_mfold. intros st s. unfold submit_sample.
    apply frames_bind; [apply frames_lift|]. intros [st' job].
    apply frames_bind; [apply frames_emit|]. intros _. apply frames_ret. }
  intros st.
  apply frames_bind; [apply frames_lift|]. intros _.
  apply frames_bind; [apply frames_lift|]. intros [rem er].
  apply frames_bind; [apply frames_lift|]. intros ev. apply frames_ret.
Qed.

Lemma frames_json_load P path : frames P (json_load path).
Proof.
  unfold json_load.
  apply frames_bind; [apply frames_get_fs|]. intros f.
  apply frames_bind; [apply frames_lift|]. intros [s|o|r];
    by apply frames_pure.
Qed.

Lemma frames_persist results rp : frames (λ p, p = rp) (persist results rp).
Proof.
  intros w r w' path Hrun Hp. rewrite persist_spec in Hrun.
  destruct (fs w !! rp) as [[c|]|]; injection Hrun as <- <-; [done..|].
  simpl. rewrite lookup_insert_ne; [done|]. by intros <-.
Qed.

(** The paths a backup of [rp] may touch. *)
Definition backup_paths (rp path : string) : Prop :=
  path = rp ∨ ∃ k, path = bak_name k (rp +:+ ".bak").

Lemma frames_backup rp : frames (backup_paths rp) (backup rp).
Proof.
  intros w r w' path Hrun Hp. unfold backup in Hrun.
  erewrite bind_ok in Hrun by reflexivity. cbv beta in Hrun.
  destruct (backup_path_spec (fs w) rp) as (k & Hbak & _).
  erewrite bind_ok in Hrun by (unfold lift; by rewrite Hbak). cbv beta in Hrun.
  unfold mbind, M_bind, bind, lift in Hrun.
  destruct (os_rename (fs w) rp (bak_name k (rp +:+ ".bak"))) as [f'|e] eqn:Hren;
    [|by injection Hrun as <- <-].
  simpl in Hrun. injection Hrun as <- <-. simpl.
  unfold os_rename in Hren. destruct (fs w !! rp) as [n|]; [|done].
  case_decide; [by injection Hren as <-|].
  assert (f' = <[bak_name k (rp +:+ ".bak") := n]> (delete rp (fs w))) as ->.
  { by destruct n, (fs w !! bak_name k (rp +:+ ".bak")) as [[?|]|];
      simplify_eq. }
  rewrite lookup_insert_ne by (intros <-; apply Hp; right; eauto).
  rewrite lookup_delete_ne; [done|]. intros <-. apply Hp. by left.
Qed.

Lemma frames_overwrite_prompt flags rp :
  frames (backup_paths rp) (overwrite_prompt flags rp).
Proof.
  unfold overwrite_prompt.
  apply frames_bind; [apply frames_get_fs|]. intros f.
  destruct (os_path_isfile f rp && i_just_wanna_run flags); [|apply frames_ret].
  apply frames_bind.
  { apply frames_pure. intros w. unfold ask_decision.
    by destruct (prompt_loop (stdin w) "") as [[? ?] ?]. }
  intros decision. case_decide; [apply frames_backup|apply frames_ret].
Qed.

Lemma frames_report_pass_at_k P results : frames P (report_pass_at_k results).
Proof.
  apply frames_pure. intros w.
  destruct (report_pass_at_k_prints results) as (r & evs & _ & Hrun).
  by rewrite Hrun.
Qed.

(** X16. A run of [evaluate_humaneval], whatever its outcome, leaves every
    path as it finds it, except the oracle's cache file, the result path
    and the backup names of the result path: the samples and every other
    file are never written, moved or removed. *)
Theorem evaluate_humaneval_frame as_completed flags w res w' rp path :
  evaluate_humaneval as_completed flags w = (res, w') →
  derive_result_path flags (fs w) = Ok rp →
  path ≠ cache_file_of get_human_eval_plus_hash →
  path ≠ rp →
  (∀ k, path ≠ bak_name k (rp +:+ ".bak")) →
  fs w' !! path = fs w !! path.
Proof.
  intros Hrun Hrp Hcache Hpath Hbak.
  set (allowed := λ p, p = cache_file_of get_human_eval_plus_hash ∨ backup_paths rp p).
  assert (¬ allowed path) as Hout.
  { intros [?|[?|[k ?]]]; [done|done|by apply (Hbak k)]. }
  unfold evaluate_humaneval in Hrun.
  erewrite bind_ok in Hrun by reflexivity. cbv beta in Hrun.
  erewrite bind_ok in Hrun by (unfold lift; by rewrite Hrp). cbv beta in Hrun.
  assert (frames allowed
    ((if os_path_isfile (fs w) rp && negb (i_just_wanna_run flags)
      then
        print (PStr ("Load from " +:+ rp));;
        results ← json_load rp;
        ret (compatible_eval_result results)
      else compute_results as_completed flags (resolve_n_workers flags)) ≫= λ results,
     overwrite_prompt flags rp;;
     persist results rp;;
     report_pass_at_k results)) as Hframes; [|exact (Hframes _ _ _ _ Hrun Hout)].
  apply frames_bind.
  { destruct (os_path_isfile (fs w) rp && negb (i_just_wanna_run flags)).
    - apply frames_bind; [apply frames_print|]. intros _.
      apply frames_bind; [apply frames_json_load|]. intros r. apply frames_ret.
    - eapply frames_mono; [|apply frames_compute_results]. intros p ->. by left. }
  intros results.
  apply frames_bind.
  { eapply frames_mono; [|apply frames_overwrite_prompt]. intros p Hp. by right. }
  intros _. apply frames_bind.
  { eapply frames_mono; [|apply frames_persist]. intros p ->. right. by left. }
  intros _. apply frames_report_pass_at_k.
Qed.

(** ** An existing cache path *)


(** ** When the summary fails *)





(** ** The force flag without a result file *)

Lemma compute_results_isfile as_completed flags n_workers w results w1 rp :
  compute_results as_completed flags n_workers w = (Ok results, w1) →
  rp ≠ cache_file_of get_human_eval_plus_hash →
  os_path_isfile (fs w1) rp = os_path_isfile (fs w) rp.
Proof.
  intros Hrun Hcache. unfold os_path_isfile.
  destruct (compute_results_fs _ _ _ _ _ _ Hrun) as [->|(_ & eo & ->)]; [done|].
  by rewrite lookup_insert_ne.
Qed.

(** Without a file at the result path a run is the fresh computation,
    the write and the summary, whatever the force flag says. *)
Lemma evaluate_humaneval_no_file as_completed flags w rp :
  derive_result_path flags (fs w) = Ok rp →
  os_path_isfile (fs w) rp = false →
  rp ≠ cache_file_of get_human_eval_plus_hash →
  evaluate_humaneval as_completed flags w =
    (results ← compute_results as_completed flags (resolve_n_workers flags);
     persist results rp;;
     report_pass_at_k results) w.
Proof.
  intros Hrp Hfile Hcache. unfold evaluate_humaneval.
  erewrite bind_ok by reflexivity. cbv beta.
  erewrite bind_ok by (unfold lift; by rewrite Hrp). cbv beta.
  rewrite Hfile. simpl.
  destruct (compute_results as_completed flags (resolve_n_workers flags) w)
    as [[results|e] w1] eqn:Hrun.
  - erewrite !(bind_ok _ _ w) by exact Hrun. cbv beta.
    erewrite bind_ok; [reflexivity|].
    unfold overwrite_prompt. erewrite bind_ok by reflexivity. cbv beta.
    by rewrite (compute_results_isfile _ _ _ _ _ _ _ Hrun Hcache), Hfile.
  - by erewrite !(bind_raise _ _ w) by exact Hrun.
Qed.

(** X19. When there is no file at the result path, and the result path is
    not the oracle's cache file, the force flag changes nothing: two runs
    whose flags agree on everything else have the same outcome, print the
    same and leave the same files, and neither shows the overwrite
    prompt. *)
Theorem force_flag_without_result_file as_completed flags flags' w rp :
  parallel flags' = parallel flags →
  samples flags' = samples flags →
  base_only flags' = base_only flags →
  full flags' = full flags →
  derive_result_path flags (fs w) = Ok rp →
  os_path_isfile (fs w) rp = false →
  rp ≠ cache_file_of get_human_eval_plus_hash →
  evaluate_humaneval as_completed flags' w = evaluate_humaneval as_completed flags w.
Proof.
  intros Hp Hs Hb Hf Hrp Hfile Hcache.
  destruct flags as [p s b force f], flags' as [p' s' b' force' f'].
  simpl in Hp, Hs, Hb, Hf. subst p' s' b' f'.
  by rewrite !(evaluate_humaneval_no_file _ _ _ rp).
Qed.

End evaluate.
End Evaluate.

(** * [eval_result/data_handler.py] *)

Module DataHandler.

Section data_handler.

(** Files hold text. *)
Notation files := (gmap string (node string)).

Definition LF : ascii := "010"%char.
Definition CR : ascii := "013"%char.

(** The one-character string written as backslash-n in the source. *)
Definition newline : string := String LF EmptyString.

(** [for line in txt_file]: the lines of a file opened in text mode.  A
    line ends at a line feed, a carriage return or the two in a row, each
    read as one line feed and kept with the line; a last line without an
    end is kept when it is not empty.  [cur] is the line read so far. *)
Fixpoint file_lines (cur : string) (s : string) {struct s} : list string :=
  match s with
  | EmptyString => if decide (cur = "") then [] else [cur]
  | String c rest =>
      if decide (c = CR) then
        match rest with
        | String c' rest' =>
            if decide (c' = LF) then (cur +:+ newline) :: file_lines "" rest'
            else (cur +:+ newline) :: file_lines "" rest
        | EmptyString => [cur +:+ newline]
        end
      else if decide (c = LF) then (cur +:+ newline) :: file_lines "" rest
      else file_lines (cur +:+ String c EmptyString) rest
  end.

(** Lines 5-10. *)
Definition get_failed_cases_from_txt (fs : files) (txt : string)
    : result (list string) :=
  txt_file ← read_file fs txt;
  Ok (foldl (λ failed_cases line, failed_cases ++ [str_strip line]) []
        (file_lines "" txt_file)).

(** ** What [json.load] returns *)

Inductive json_value : Type :=
| JNull
| JBool (b : bool)
| JInt (n : Z)
| JFloat (literal : string)
| JStr (s : string)
| JArr (items : list json_value)
| JObj (members : dict json_value).

(** [json.load] of the module [json], on the text of an open file. *)
Variable json_load : string → result json_value.

(** The objects the names of [get_failed_cases_from_json] are bound to. *)
Inductive pyobj : Type :=
| StrObj (s : string)
| FileObj (content : string)
| JsonModule.

(** The module's globals after its imports, as far as the functions use
    them. *)
Definition module_globals : dict pyobj := [("json", JsonModule)].

(** A name is looked up among the locals of the running function first and
    among the globals of the module after that. *)
Definition resolve (locals : dict pyobj) (name : string) : result pyobj :=
  match dict_get name locals with
  | Some o => Ok o
  | None => of_option NameError (dict_get name module_globals)
  end.

(** [o.load]: the module [json] has the attribute, a [str] and a file
    object have not. *)
Definition getattr_load (o : pyobj) : result (string → result json_value) :=
  match o with
  | JsonModule => Ok json_load
  | StrObj _ | FileObj _ => Raise AttributeError
  end.

(** [open(o)] for reading. *)
Definition open_read (fs : files) (o : pyobj) : result pyobj :=
  match o with
  | StrObj path => content ← read_file fs path; Ok (FileObj content)
  | _ => Raise TypeError
  end.

(** Calling what [json.load] evaluated to on an argument. *)
Definition call_load (f : string → result json_value) (arg : pyobj)
    : result json_value :=
  match arg with
  | FileObj content => f content
  | _ => Raise AttributeError
  end.

(** An index taken from the end when it is negative. *)
Definition seq_item {A} (l : list A) (i : Z) : result A :=
  let n := Z.of_nat (length l) in
  let j := if decide (i < 0)%Z then (i + n)%Z else i in
  if decide (0 ≤ j < n)%Z then of_option IndexError (l !! Z.to_nat j)
  else Raise IndexError.

Definition index_of (k : json_value) : option Z :=
  match k with
  | JInt i => Some i
  | JBool b => Some (if b then 1 else 0)%Z
  | _ => None
  end.

Fixpoint chars (s : string) : list string :=
  match s with
  | EmptyString => []
  | String c s' => String c EmptyString :: chars s'
  end.

(** [v[k]] *)
Definition getitem (v k : json_value) : result json_value :=
  match v with
  | JObj d =>
      match k with
      | JStr s => of_option KeyError (dict_get s d)
      | JArr _ | JObj _ => Raise TypeError
      | _ => Raise KeyError
      end
  | JArr l =>
      match index_of k with
      | Some i => seq_item l i
      | None => Raise TypeError
      end
  | JStr s =>
      match index_of k with
      | Some i => c ← seq_item (chars s) i; Ok (JStr c)
      | None => Raise TypeError
      end
  | _ => Raise TypeError
  end.

(** [for case in v]: the keys of an object, the items of a list, the
    characters of a string. *)
Definition iterate (v : json_value) : result (list json_value) :=
  match v with
  | JObj d => Ok (JStr <$> dict_keys d)
  | JArr l => Ok l
  | JStr s => Ok (JStr <$> chars s)
  | _ => Raise TypeError
  end.

(** [v == 'failed'] *)
Definition is_failed (v : json_value) : bool :=
  match v with
  | JStr s => bool_decide (s = "failed")
  | _ => false
  end.

(** [data["eval"][case][suite][0][0] == 'failed'] *)
Definition suite_failed (data case : json_value) (suite : string) : result bool :=
  eval ← getitem data (JStr "eval");
  entry ← getitem eval case;
  runs ← getitem entry (JStr suite);
  first ← getitem runs (JInt 0);
  status ← getitem first (JInt 0);
  Ok (is_failed status).

(** The body of the loop of lines 17-19. *)
Definition failed_step (data : json_value) (failed_cases : list json_value)
    (case : json_value) : result (list json_value) :=
  base ← suite_failed data case "base";
  if (base : bool) then Ok (failed_cases ++ [case])
  else
    plus ← suite_failed data case "plus";
    if (plus : bool) then Ok (failed_cases ++ [case]) else Ok failed_cases.

(** Lines 12-20.  The parameter is called [json]: inside the function the
    name is bound to the path. *)
Definition get_failed_cases_from_json (fs : files) (json : string)
    : result (list json_value) :=
  let locals : dict pyobj := [("json", StrObj json)] in
  path ← resolve locals "json";
  json_file ← open_read fs path;
  receiver ← resolve (dict_set "json_file" json_file locals) "json";
  load ← getattr_load receiver;
  data ← call_load load json_file;
  eval ← getitem data (JStr "eval");
  cases ← iterate eval;
  rfold (failed_step data) [] cases.

Record GenerateArgs := {
  g_json : string;
  g_output : string;
}.

(** [for case in failed_cases: f.write(case + newline)] on a file opened
    for writing, with the text written so far: [case + newline] needs a
    [str]. *)
Fixpoint write_json_cases (cases : list json_value) (written : string)
    : result unit * string :=
  match cases with
  | [] => (Ok (), written)
  | JStr s :: rest => write_json_cases rest (written +:+ s +:+ newline)
  | _ :: _ => (Raise TypeError, written)
  end.

(** Lines 22-31, on the parsed arguments. *)
Definition generate_failed_cases (args : GenerateArgs) (fs : files)
    : result unit * files :=
  match get_failed_cases_from_json fs (g_json args) with
  | Raise e => (Raise e, fs)
  | Ok failed_cases =>
      let path := g_output args +:+ "-failed-cases.txt" in
      match write_file fs path "" with
      | Raise e => (Raise e, fs)
      | Ok fs1 =>
          let '(r, written) := write_json_cases failed_cases "" in
          (r, <[path := File written]> fs1)
      end
  end.

Record CompareArgs := {
  file1 : string;
  file2 : string;
  output : string;
}.

(** [for case in cases: f.write(case + newline)] *)
Definition write_cases (cases : list string) : string :=
  foldl (λ written case, written +:+ case +:+ newline) "" cases.

Definition f1_not_f2_path (args : CompareArgs) : string :=
  output args +:+ "-f1-not-f2.txt".
Definition f2_not_f1_path (args : CompareArgs) : string :=
  output args +:+ "-f2-not-f1.txt".

(** Lines 33-53, on the parsed arguments.  [set_iter] is the order in which
    the interpreter of the run iterates over a set. *)
Definition compare_two_failed_cases (set_iter : gset string → list string)
    (args : CompareArgs) (fs : files) : result unit * files :=
  match get_failed_cases_from_txt fs (file1 args) with
  | Raise e => (Raise e, fs)
  | Ok f1 =>
      match get_failed_cases_from_txt fs (file2 args) with
      | Raise e => (Raise e, fs)
      | Ok f2 =>
          let f1_set : gset string := list_to_set f1 in
          let f2_set : gset string := list_to_set f2 in
          let f1_not_f2 := f1_set ∖ f2_set in
          let f2_not_f1 := f2_set ∖ f1_set in
          match write_file fs (f1_not_f2_path args)
                  (write_cases (set_iter f1_not_f2)) with
          | Raise e => (Raise e, fs)
          | Ok fs1 =>
              match write_file fs1 (f2_not_f1_path args)
                      (write_cases (set_iter f2_not_f1)) with
              | Raise e => (Raise e, fs1)
              | Ok fs2 => (Ok (), fs2)
              end
          end
      end
  end.


(** * Properties *)

(** ** The failed-case extractor *)

(** C10. [get_failed_cases_from_json] returns for no file system and no
    path: opening the path fails when no file is there, and with a file
    [json.load] is looked up on the path, a [str], which has no such
    attribute.  So [generate_failed_cases] raises too and leaves every file
    as it was: no failed-cases file is written. *)
Theorem get_failed_cases_from_json_raises (fs : files) (json : string) :
  get_failed_cases_from_json fs json =
    match fs !! json with
    | Some (File _) => Raise AttributeError
    | Some Dir => Raise IsADirectoryError
    | None => Raise FileNotFoundError
    end
  ∧ is_ok (get_failed_cases_from_json fs json) = false
  ∧ ∀ output,
      ∃ e, generate_failed_cases {| g_json := json; g_output := output |} fs
           = (Raise e, fs).
Proof.
  assert (get_failed_cases_from_json fs json =
            match fs !! json with
            | Some (File _) => Raise AttributeError
            | Some Dir => Raise IsADirectoryError
            | None => Raise FileNotFoundError
            end) as Hraise.
  { unfold get_failed_cases_from_json, resolve, open_read, read_file. simpl.
    by destruct (fs !! json) as [[c|]|]. }
  split; [done|]. split.
  - rewrite Hraise. by destruct (fs !! json) as [[c|]|].
  - intros output. unfold generate_failed_cases. simpl. rewrite Hraise.
    destruct (fs !! json) as [[c|]|]; eauto.
Qed.

(** ** The failure-set differ *)

(** The identifiers of a failure file: its lines, stripped. *)
Definition failed_set (content : string) : gset string :=
  list_to_set (str_strip <$> file_lines "" content).

Lemma foldl_snoc_fmap {A B} (f : A → B) (acc : list B) (l : list A) :
  foldl (λ acc x, acc ++ [f x]) acc l = acc ++ (f <$> l).
Proof.
  revert acc. induction l as [|x l IH]; intros acc; csimpl.
  - by rewrite app_nil_r.
  - rewrite IH. by rewrite <-app_assoc.
Qed.

Lemma get_failed_cases_from_txt_ok (fs : files) txt content :
  fs !! txt = Some (File content) →
  get_failed_cases_from_txt fs txt = Ok (str_strip <$> file_lines "" content).
Proof.
  intros H. unfold get_failed_cases_from_txt, read_file. rewrite H. simpl.
  by rewrite foldl_snoc_fmap.
Qed.

Lemma write_file_ok (fs : files) path content :
  fs !! path ≠ Some Dir →
  write_file fs path content = Ok (<[path := File content]> fs).
Proof. intros H. unfold write_file. by destruct (fs !! path) as [[c|]|]. Qed.

Lemma output_paths_ne (args : CompareArgs) :
  f1_not_f2_path args ≠ f2_not_f1_path args.
Proof. unfold f1_not_f2_path, f2_not_f1_path. by intros H%String.app_inj. Qed.

(** A run whose two inputs are files and whose output paths are free of
    directories writes the two differences in the order of iteration. *)
Lemma compare_two_failed_cases_run set_iter args (fs : files) c1 c2 :
  fs !! file1 args = Some (File c1) →
  fs !! file2 args = Some (File c2) →
  fs !! f1_not_f2_path args ≠ Some Dir →
  fs !! f2_not_f1_path args ≠ Some Dir →
  compare_two_failed_cases set_iter args fs =
    (Ok (),
     <[f2_not_f1_path args :=
         File (write_cases (set_iter (failed_set c2 ∖ failed_set c1)))]>
       (<[f1_not_f2_path args :=
            File (write_cases (set_iter (failed_set c1 ∖ failed_set c2)))]> fs)).
Proof.
  intros H1 H2 Hd1 Hd2. unfold compare_two_failed_cases.
  rewrite (get_failed_cases_from_txt_ok _ _ _ H1).
  rewrite (get_failed_cases_from_txt_ok _ _ _ H2).
  rewrite write_file_ok by done.
  rewrite write_file_ok; [done|].
  rewrite lookup_insert_ne; [done|]. apply output_paths_ne.
Qed.


(** ** Reading back what was written *)

(** No carriage return and no line feed in [s]. *)
Fixpoint no_line_break (s : string) : bool :=
  match s with
  | EmptyString => true
  | String c s' => negb (bool_decide (c = CR ∨ c = LF)) && no_line_break s'
  end.

(** An identifier as the reader returns it: free of line breaks and of
    white space at either end. *)
Definition clean (case : string) : Prop :=
  no_line_break case = true ∧ str_strip case = case.

Lemma write_cases_from (written : string) (cases : list string) :
  foldl (λ written case, written +:+ case +:+ newline) written cases =
    written +:+ write_cases cases.
Proof.
  unfold write_cases. revert written.
  induction cases as [|c cases IH]; intros written; simpl.
  - by rewrite Evaluate.string_app_nil_r.
  - rewrite IH, (IH ("" +:+ c +:+ newline)).
    by rewrite Evaluate.string_app_nil_l, !Evaluate.string_app_assoc.
Qed.

Lemma write_cases_cons (c : string) (cases : list string) :
  write_cases (c :: cases) = c +:+ newline +:+ write_cases cases.
Proof.
  unfold write_cases at 1. simpl. rewrite write_cases_from.
  by rewrite Evaluate.string_app_nil_l, Evaluate.string_app_assoc.
Qed.

Lemma file_lines_line (cur c rest : string) :
  no_line_break c = true →
  file_lines cur (c +:+ newline +:+ rest) =
    (cur +:+ c +:+ newline) :: file_lines "" rest.
Proof.
  revert cur. induction c as [|a c IH]; intros cur Hc.
  - rewrite !Evaluate.string_app_nil_l. unfold newline.
    rewrite Evaluate.string_app_cons, Evaluate.string_app_nil_l.
    cbn [file_lines]. rewrite decide_False by done. by rewrite decide_True.
  - simpl in Hc. apply andb_true_iff in Hc as [Ha Hc].
    apply negb_true_iff, bool_decide_eq_false in Ha.
    rewrite Evaluate.string_app_cons. cbn [file_lines].
    rewrite decide_False by tauto. rewrite decide_False by tauto.
    rewrite IH by done. f_equal.
    by rewrite Evaluate.string_app_assoc, Evaluate.string_app_cons,
      Evaluate.string_app_nil_l.
Qed.

Lemma file_lines_written (cases : list string) :
  Forall (λ c, no_line_break c = true) cases →
  file_lines "" (write_cases cases) = (λ c, c +:+ newline) <$> cases.
Proof.
  induction 1 as [|c cases Hc _ IH]; [done|].
  rewrite write_cases_cons, file_lines_line by done. csimpl.
  by rewrite IH, Evaluate.string_app_nil_l.
Qed.

Lemma str_lstrip_app (a b : string) :
  str_lstrip (a +:+ b) =
    match str_lstrip a with
    | EmptyString => str_lstrip b
    | String x t => String x t +:+ b
    end.
Proof.
  induction a as [|c a IH]; [done|].
  rewrite Evaluate.string_app_cons. simpl. by destruct (is_whitespace c).
Qed.

(** The line end of a line does not show in its identifier. *)
Lemma str_strip_newline (c : string) : str_strip (c +:+ newline) = str_strip c.
Proof.
  unfold str_strip. rewrite str_lstrip_app.
  destruct (str_lstrip c) as [|x t]; [done|].
  rewrite Evaluate.string_rev_app.
  change (String.rev newline) with newline. unfold newline.
  by rewrite Evaluate.string_app_cons, Evaluate.string_app_nil_l.
Qed.

Lemma write_cases_round_trip_clean (fs : files) (path : string) (cases : list string) :
  Forall clean cases →
  fs !! path = Some (File (write_cases cases)) →
  get_failed_cases_from_txt fs path = Ok cases.
Proof.
  intros Hclean Hfile. rewrite (get_failed_cases_from_txt_ok _ _ _ Hfile).
  rewrite file_lines_written by (eapply Forall_impl; [exact Hclean|]; by intros c [? _]).
  f_equal. rewrite <-list_fmap_compose. clear Hfile.
  induction Hclean as [|c cases [_ Hc] _ IH]; [done|].
  rewrite fmap_cons, IH. simpl. by rewrite str_strip_newline, Hc.
Qed.

(** X12. Reading is the inverse of writing: a file that holds identifiers
    free of line breaks and of surrounding white space, written one per
    line as the differ writes them, is read back by
    [get_failed_cases_from_txt] as the same identifiers in the same
    order. *)
Theorem write_cases_round_trip (fs : files) (path : string) (cases : list string) :
  Forall clean cases →
  fs !! path = Some (File (write_cases cases)) →
  get_failed_cases_from_txt fs path = Ok cases.
Proof. apply write_cases_round_trip_clean. Qed.

(** ** The identifiers the reader returns *)

Definition starts_clean (s : string) : Prop :=
  match s with
  | EmptyString => True
  | String c _ => is_whitespace c = false
  end.

Lemma str_lstrip_clean (s : string) : starts_clean (str_lstrip s).
Proof.
  induction s as [|c s IH]; simpl; [done|].
  by destruct (is_whitespace c) eqn:Hc.
Qed.

Lemma str_lstrip_id (s : string) : starts_clean s → str_lstrip s = s.
Proof. destruct s as [|c s]; simpl; [done|]. by intros ->. Qed.

Lemma str_lstrip_suffix (s : string) : ∃ p, s = p +:+ str_lstrip s.
Proof.
  induction s as [|c s [p IH]]; simpl; [by exists ""|].
  destruct (is_whitespace c).
  - exists (String c p). by rewrite Evaluate.string_app_cons, <-IH.
  - by exists "".
Qed.

Lemma str_strip_idem (s : string) : str_strip (str_strip s) = str_strip s.
Proof.
  unfold str_strip.
  set (t := str_lstrip s). set (u := str_lstrip (String.rev t)).
  assert (starts_clean (String.rev u)) as Hclean.
  { destruct (str_lstrip_suffix (String.rev t)) as [p Hp]. fold u in Hp.
    apply (f_equal String.rev) in Hp.
    rewrite Evaluate.string_rev_involutive, Evaluate.string_rev_app in Hp.
    pose proof (str_lstrip_clean s) as Ht. fold t in Ht. rewrite Hp in Ht.
    destruct (String.rev u); [done|]. by rewrite Evaluate.string_app_cons in Ht. }
  rewrite (str_lstrip_id _ Hclean), Evaluate.string_rev_involutive.
  by rewrite (str_lstrip_id u) by apply str_lstrip_clean.
Qed.

Lemma no_line_break_app (a b : string) :
  no_line_break (a +:+ b) = no_line_break a && no_line_break b.
Proof.
  induction a as [|c a IH]; [done|].
  rewrite Evaluate.string_app_cons. simpl. by rewrite IH, andb_assoc.
Qed.

Lemma no_line_break_rev (s : string) :
  no_line_break (String.rev s) = no_line_break s.
Proof.
  induction s as [|c s IH]; [done|].
  rewrite Evaluate.string_rev_cons, no_line_break_app, IH. simpl.
  by rewrite andb_true_r, andb_comm.
Qed.

Lemma no_line_break_lstrip (s : string) :
  no_line_break s = true → no_line_break (str_lstrip s) = true.
Proof.
  induction s as [|c s IH]; simpl; [done|].
  intros [Hc Hs]%andb_true_iff. destruct (is_whitespace c); [auto|].
  simpl. by rewrite Hc, Hs.
Qed.

Lemma no_line_break_strip (s : string) :
  no_line_break s = true → no_line_break (str_strip s) = true.
Proof.
  intros Hs. unfold str_strip.
  rewrite no_line_break_rev. apply no_line_break_lstrip.
  rewrite no_line_break_rev. by apply no_line_break_lstrip.
Qed.

(** A line of a file is a text without line breaks, followed by a line
    feed unless it is the last one. *)
Definition line_of_body (line : string) : Prop :=
  ∃ body, no_line_break body = true ∧ (line = body +:+ newline ∨ line = body).

Lemma file_lines_bodies (n : nat) (s cur : string) :
  String.length s ≤ n →
  no_line_break cur = true →
  Forall line_of_body (file_lines cur s).
Proof.
  revert s cur. induction n as [|n IH]; intros s cur Hn Hcur.
  { destruct s; [|simpl in Hn; lia]. simpl. case_decide; [done|].
    repeat constructor. exists cur. eauto. }
  destruct s as [|c s]; simpl.
  { case_decide; [done|]. repeat constructor. exists cur. eauto. }
  simpl in Hn.
  destruct (decide (c = CR)) as [->|Hcr].
  - destruct s as [|c' s].
    + repeat constructor. exists cur. eauto.
    + simpl in Hn. destruct (decide (c' = LF)) as [->|Hlf].
      * constructor; [exists cur; eauto|]. apply IH; [lia|done].
      * constructor; [exists cur; eauto|]. apply IH; [simpl; lia|done].
  - destruct (decide (c = LF)) as [->|Hlf].
    + constructor; [exists cur; eauto|]. apply IH; [lia|done].
    + apply IH; [lia|]. rewrite no_line_break_app, Hcur. simpl.
      rewrite bool_decide_eq_false_2 by tauto. done.
Qed.

Lemma get_failed_cases_clean (content : string) :
  Forall clean (str_strip <$> file_lines "" content).
Proof.
  apply Forall_fmap.
  eapply Forall_impl; [by apply (file_lines_bodies (String.length content))|].
  intros line (body & Hbody & [->| ->]); simpl.
  - rewrite str_strip_newline. split; [by apply no_line_break_strip|apply str_strip_idem].
  - split; [by apply no_line_break_strip|apply str_strip_idem].
Qed.

(** X13. Every identifier [get_failed_cases_from_txt] returns is free of
    line breaks and of white space at either end.  So the two files the
    differ writes can be read again: each gives back the difference that
    was written to it, in the order it was written. *)
Theorem compare_outputs_read_back set_iter args (fs : files) c1 c2 :
  (∀ X, set_iter X ≡ₚ elements X) →
  fs !! file1 args = Some (File c1) →
  fs !! file2 args = Some (File c2) →
  fs !! f1_not_f2_path args ≠ Some Dir →
  fs !! f2_not_f1_path args ≠ Some Dir →
  (∀ cases, get_failed_cases_from_txt fs (file1 args) = Ok cases → Forall clean cases)
  ∧ ∃ fs',
      compare_two_failed_cases set_iter args fs = (Ok (), fs')
      ∧ get_failed_cases_from_txt fs' (f1_not_f2_path args) =
          Ok (set_iter (failed_set c1 ∖ failed_set c2))
      ∧ get_failed_cases_from_txt fs' (f2_not_f1_path args) =
          Ok (set_iter (failed_set c2 ∖ failed_set c1)).
Proof.
  intros Hiter H1 H2 Hd1 Hd2. split.
  { intros cases. rewrite (get_failed_cases_from_txt_ok _ _ _ H1).
    intros [= <-]. apply get_failed_cases_clean. }
  assert (∀ a b, Forall clean (set_iter (failed_set a ∖ failed_set b))) as Hclean.
  { intros a b. rewrite Hiter. apply Forall_forall. intros x.
    rewrite elem_of_elements, elem_of_difference. intros [Hx _].
    unfold failed_set in Hx. apply elem_of_list_to_set in Hx.
    by eapply Forall_forall in Hx; [|apply get_failed_cases_clean]. }
  eexists. split; [by apply compare_two_failed_cases_run|]. split.
  - apply write_cases_round_trip_clean; [apply Hclean|].
    rewrite lookup_insert_ne by (by apply not_eq_sym, output_paths_ne).
    by rewrite lookup_insert_eq.
  - apply write_cases_round_trip_clean; [apply Hclean|].
    by rewrite lookup_insert_eq.
Qed.

(** ** Inputs that agree, inputs that are missing *)

(** X14. Two input files with the same identifiers, in whatever order,
    with whatever repetitions, blank space around them or line ends, and
    in particular one file given twice, give two empty output files. *)
Theorem compare_equal_sets set_iter args (fs : files) c1 c2 :
  (∀ X, set_iter X ≡ₚ elements X) →
  fs !! file1 args = Some (File c1) →
  fs !! file2 args = Some (File c2) →
  fs !! f1_not_f2_path args ≠ Some Dir →
  fs !! f2_not_f1_path args ≠ Some Dir →
  failed_set c1 = failed_set c2 →
  compare_two_failed_cases set_iter args fs =
    (Ok (), <[f2_not_f1_path args := File ""]>
              (<[f1_not_f2_path args := File ""]> fs)).
Proof.
  intros Hiter H1 H2 Hd1 Hd2 Heq.
  rewrite (compare_two_failed_cases_run _ _ _ _ _ H1 H2 Hd1 Hd2), Heq.
  assert (set_iter (failed_set c2 ∖ failed_set c2) = []) as ->; [|done].
  apply Permutation_nil_r. rewrite Hiter.
  by rewrite difference_diag_L, elements_empty.
Qed.

(** X15. What the differ does when it cannot go on.  A missing first or
    second input stops it with [FileNotFoundError] before anything is
    written; so does a directory at the first output path, with
    [IsADirectoryError].  A directory at the second output path stops it
    after the first output file has been written. *)
Theorem compare_two_failed_cases_errors set_iter args (fs : files) :
  (fs !! file1 args = None →
     compare_two_failed_cases set_iter args fs = (Raise FileNotFoundError, fs))
  ∧ (∀ c1, fs !! file1 args = Some (File c1) → fs !! file2 args = None →
       compare_two_failed_cases set_iter args fs = (Raise FileNotFoundError, fs))
  ∧ (∀ c1 c2, fs !! file1 args = Some (File c1) → fs !! file2 args = Some (File c2) →
       fs !! f1_not_f2_path args = Some Dir →
       compare_two_failed_cases set_iter args fs = (Raise IsADirectoryError, fs))
  ∧ (∀ c1 c2, fs !! file1 args = Some (File c1) → fs !! file2 args = Some (File c2) →
       fs !! f1_not_f2_path args ≠ Some Dir →
       fs !! f2_not_f1_path args = Some Dir →
       compare_two_failed_cases set_iter args fs =
         (Raise IsADirectoryError,
          <[f1_not_f2_path args :=
              File (write_cases (set_iter (failed_set c1 ∖ failed_set c2)))]> fs)).
Proof.
  split_and!.
  - intros H1. unfold compare_two_failed_cases, get_failed_cases_from_txt, read_file.
    by rewrite H1.
  - intros c1 H1 H2. unfold compare_two_failed_cases.
    rewrite (get_failed_cases_from_txt_ok _ _ _ H1).
    unfold get_failed_cases_from_txt, read_file. by rewrite H2.
  - intros c1 c2 H1 H2 Hd. unfold compare_two_failed_cases.
    rewrite (get_failed_cases_from_txt_ok _ _ _ H1).
    rewrite (get_failed_cases_from_txt_ok _ _ _ H2).
    unfold write_file. by rewrite Hd.
  - intros c1 c2 H1 H2 Hd1 Hd2. unfold compare_two_failed_cases.
    rewrite (get_failed_cases_from_txt_ok _ _ _ H1).
    rewrite (get_failed_cases_from_txt_ok _ _ _ H2).
    rewrite write_file_ok by done.
    unfold write_file at 1.
    rewrite lookup_insert_ne by apply output_paths_ne. by rewrite Hd2.
Qed.

End data_handler.

End DataHandler.

(** * A small run *)

Module Examples.

Import Evaluate.

(** Two problems over lists of integers.  Executing a solution returns its
    inputs and takes one tick of the clock; a check succeeds on the
    solution text [ok]; the estimator is replaced by the success rate in
    percent. *)
Definition demo_trusted_exec (code : string) (inputs : list Z) (entry : string)
    (c : Z) : (list Z * Z) * Z :=
  ((inputs, 1%Z), (c + 1)%Z).

Definition demo_untrusted_check (solution : string) (inputs : list Z)
    (entry : string) (expected : list Z) (atol ref_time : Z) (fast_check : bool)
    : Result :=
  if bool_decide (solution = "ok") then ("success", [true]) else ("failed", [false]).

Definition demo_estimate (total correct : list Z) (k : Z) : list Z :=
  zip_with (λ n c, (100 * c / n)%Z) total correct.

Definition demo_mean (l : list Z) : Z :=
  (foldr Z.add 0 l / Z.of_nat (length l))%Z.

Definition demo_problem (name : string) : Problem :=
  {| task_id := name; prompt := "def f(x):"; canonical_solution := " return x";
     base_input := [1%Z]; plus_input := [1%Z; 2%Z]; entry_point := "f";
     atol := 0%Z |}.

Definition demo_problems : dict Problem :=
  [("HumanEval/0", demo_problem "HumanEval/0");
   ("HumanEval/1", demo_problem "HumanEval/1")].

Definition demo_sample (task identifier solution : string) : Sample :=
  {| s_task_id := task; s_solution := Some solution; s_completion := None;
     s_identifier := identifier |}.

Definition demo_solutions : list Sample :=
  [demo_sample "HumanEval/0" "a" "ok";
   demo_sample "HumanEval/1" "b" "ok";
   demo_sample "HumanEval/0" "c" "bad"].

Definition demo_load_solutions (f : gmap string (node (@stored (list Z) Z)))
    (path : string) : result (list Sample) :=
  match f !! path with
  | Some _ => Ok demo_solutions
  | None => Raise FileNotFoundError
  end.

Definition demo_flags : Flags :=
  {| parallel := Some 2%Z; samples := "samples.jsonl"; base_only := false;
     i_just_wanna_run := false; full := false |}.

Definition demo_forced : Flags :=
  {| parallel := Some 2%Z; samples := "samples.jsonl"; base_only := false;
     i_just_wanna_run := true; full := false |}.

Definition demo_eo : dict (@Oracle (list Z) Z) :=
  (oracle_run demo_trusted_exec demo_problems [] 0%Z).1.

Definition demo_st : dispatch :=
  match submit_all demo_problems demo_eo demo_flags dispatch_init demo_solutions with
  | Ok st => st
  | Raise _ => dispatch_init
  end.

(** A stored result document: two candidates for the first task, one for
    the second. *)
Definition demo_doc : Results :=
  {| res_date := "2023-01-01 00:00"; res_hash := "hash";
     res_eval :=
       [("HumanEval/0",
         {| nfiles := 2;
            t_base := [("success", [true]); ("failed", [false])];
            t_plus := [("success", [true]); ("failed", [false])] |});
        ("HumanEval/1",
         {| nfiles := 1;
            t_base := [("success", [true])];
            t_plus := [("failed", [false])] |})] |}.

(** Worlds: only the samples file; the samples file and a result document;
    the same with the answer y on standard input. *)
Definition World : Type := @world (list Z) (list Z) Z Z Z Z.

Definition demo_world : World :=
  {| fs := {[ "samples.jsonl" := File (Text "") ]};
     clock := 0%Z; stdin := []; trace := [] |}.

Definition demo_stored : World :=
  {| fs := <[ "samples_eval_results.json" := File (Json demo_doc) ]>
             {[ "samples.jsonl" := File (Text "") ]};
     clock := 0%Z; stdin := ["y"]; trace := [] |}.

Definition demo_compute (as_completed : list Job → list Job) (flags : Flags)
    (w : World) : result Results * World :=
  compute_results "cache" demo_trusted_exec demo_untrusted_check demo_problems
    "hash" demo_load_solutions pretty as_completed flags 2%Z w.

Definition demo_evaluate (as_completed : list Job → list Job) (flags : Flags)
    (w : World) : result unit * World :=
  evaluate_humaneval "cache" "success" demo_trusted_exec demo_untrusted_check
    demo_estimate demo_mean id demo_problems "hash" demo_load_solutions 8%Z
    pretty as_completed flags w.

Definition demo_results (flags : Flags) (w : World) : Results :=
  match (demo_compute id flags w).1 with
  | Ok r => r
  | Raise _ => demo_doc
  end.

Lemma demo_problems_wf : dict_wf demo_problems.
Proof. unfold dict_wf. apply (bool_decide_unpack _). by vm_compute. Defined.

Lemma demo_problems_consistent : dataset_consistent demo_problems.
Proof.
  intros k p. unfold demo_problems. simpl.
  repeat case_decide; intros [= <-]; by subst.
Defined.


Lemma base_pass_at_k_inclusion_witness :
  ∃ pass_at_k rest,
    report_pass_at_k "success" demo_estimate demo_mean demo_doc demo_world =
      (Ok (), add_trace demo_world
                (Print (PStr "Base") :: Print (PPassAtK pass_at_k) :: rest))
    ∧ is_Some (dict_get (pass_key 1) pass_at_k)
    ∧ dict_get (pass_key 10) pass_at_k = None.
Proof.
  destruct (base_pass_at_k_inclusion "cache" "success" demo_trusted_exec
              demo_untrusted_check demo_estimate demo_mean "hash" 8%Z
              demo_doc demo_world) as (d & rest & Hrun & Hks & _).
  - done.
  - repeat constructor.
  - exists d, rest. split; [exact Hrun|]. split.
    + apply (Hks 1%Z); [set_solver|]. unfold totals. simpl.
      repeat (apply Forall_cons; split; [lia|]). apply Forall_nil_2.
    + apply eq_None_not_Some. intros Hsome.
      apply (Hks 10%Z) in Hsome; [|set_solver].
      apply Forall_cons in Hsome as [Hle _]. simpl in Hle. lia.
Defined.


Lemma get_groundtruth_cache_witness :
  ∃ eo w',
    get_groundtruth "cache" demo_trusted_exec demo_problems "hash" demo_world =
      (Ok eo, w')
    ∧ dict_keys eo = ["HumanEval/0"; "HumanEval/1"]
    ∧ get_groundtruth "cache" demo_trusted_exec demo_problems "hash" w' =
        (Ok eo, add_trace w' [Print (PStr "Load from cache/hash.pkl")]).
Proof.
  destruct (get_groundtruth_cache (Float:=Z) "cache" demo_trusted_exec
              demo_problems "hash" demo_world demo_problems_wf) as [_ Hmiss].
  destruct Hmiss as (eo & w' & Hrun & Hkeys & _ & _ & _ & Hagain).
  - by vm_compute.
  - exists eo, w'. split; [exact Hrun|]. split; [exact Hkeys|exact Hagain].
Defined.

Lemma submission_checks_witness :
  check_submitted demo_problems demo_st = Ok ()
  ∧ counter_total (completion_id demo_st) = 3.
Proof.
  destruct (submission_checks "cache" demo_trusted_exec demo_untrusted_check
              demo_problems demo_eo demo_flags demo_solutions demo_st
              demo_problems_wf) as (Hiff & _ & Hcount).
  { by vm_compute. }
  assert (check_submitted demo_problems demo_st = Ok ()) as Hok by (by vm_compute).
  split; [done|]. by destruct (Hcount Hok) as [-> _].
Defined.

Lemma load_existing_results_witness :
  ∃ res stats,
    demo_evaluate id demo_flags demo_stored =
      (res, add_trace demo_stored
              (Print (PStr "Load from samples_eval_results.json") :: stats))
    ∧ forallb is_print stats = true.
Proof.
  destruct (load_existing_results "cache" "success" demo_trusted_exec
              demo_untrusted_check demo_estimate demo_mean id demo_problems "hash"
              demo_load_solutions 8%Z pretty id demo_flags demo_stored
              "samples_eval_results.json" demo_doc)
    as (res & stats & _ & Hprints & Hrun & _); [by vm_compute..|].
  exists res, stats. split; [exact Hrun|exact Hprints].
Defined.

(** The override [--parallel 0] is taken as it is, and the pool rejects it. *)
Lemma resolve_n_workers_zero :
  resolve_n_workers 8 {| parallel := Some 0%Z; samples := "samples.jsonl";
                         base_only := false; i_just_wanna_run := false;
                         full := false |} = 0%Z
  ∧ process_pool_executor 0 = Raise ValueError.
Proof. by vm_compute. Qed.


(** The differ on the failure files {a, b, c} and {b, c, d}. *)
Definition demo_files : gmap string (node string) :=
  <[ "f2.txt" := File ("b" +:+ DataHandler.newline +:+ "c" +:+ DataHandler.newline
                         +:+ "d" +:+ DataHandler.newline) ]>
    {[ "f1.txt" := File ("a" +:+ DataHandler.newline +:+ "b" +:+ DataHandler.newline
                           +:+ "c" +:+ DataHandler.newline) ]}.

Definition demo_args : DataHandler.CompareArgs :=
  {| DataHandler.file1 := "f1.txt"; DataHandler.file2 := "f2.txt";
     DataHandler.output := "out" |}.


(** ** Further runs *)

(** The stored world with the answers x and N on standard input. *)
Definition demo_declined : World :=
  {| fs := fs demo_stored; clock := 0%Z; stdin := ["x"; "N"]; trace := [] |}.


Lemma forced_run_declined_witness :
  ∃ res stats,
    demo_evaluate id demo_forced demo_declined =
      (res, add_trace
              (prompted "samples_eval_results.json"
                 (demo_compute id demo_forced demo_declined).2 [] 2) stats)
    ∧ fs (demo_compute id demo_forced demo_declined).2
        !! "samples_eval_results.json" = Some (File (Json demo_doc)).
Proof.
  destruct (forced_run_declined "cache" "success" demo_trusted_exec
              demo_untrusted_check demo_estimate demo_mean id demo_problems "hash"
              demo_load_solutions 8%Z pretty id demo_forced demo_declined
              "samples_eval_results.json" (Json demo_doc)
              (demo_results demo_forced demo_declined)
              (demo_compute id demo_forced demo_declined).2 "N" [] 2)
    as (_ & _ & res & stats & Hrun & _ & _ & Hfile); [by vm_compute..|].
  exists res, stats. split; [exact Hrun|exact Hfile].
Defined.

Lemma remainings_track_pending_witness :
  ∃ er,
    collect demo_untrusted_check demo_st (take 1 (reverse (futures demo_st))) =
      Ok (list_to_set (j_identifier <$> drop 1 (reverse (futures demo_st))), er)
    ∧ size (list_to_set (j_identifier <$> drop 1 (reverse (futures demo_st)))
              : gset string) = 2.
Proof.
  destruct (remainings_track_pending "cache" demo_trusted_exec demo_untrusted_check
              demo_problems demo_eo demo_flags demo_solutions demo_st
              (take 1 (reverse (futures demo_st)))
              (drop 1 (reverse (futures demo_st))))
    as (er & Hcol & Hsize & _).
  - apply demo_problems_consistent.
  - by vm_compute.
  - by vm_compute.
  - rewrite take_drop. apply reverse_Permutation.
  - exists er. split; [exact Hcol|]. rewrite Hsize. by vm_compute.
Defined.

Lemma fresh_results_shape_witness :
  dict_len (res_eval (demo_results demo_flags demo_world)) = dict_len demo_problems
  ∧ Forall (entry_shape demo_flags)
      (dict_values (res_eval (demo_results demo_flags demo_world))).
Proof.
  destruct (fresh_results_shape "cache" demo_trusted_exec demo_untrusted_check
              demo_problems "hash" demo_load_solutions pretty id demo_flags 2%Z
              demo_world (demo_results demo_flags demo_world)
              (demo_compute id demo_flags demo_world).2)
    as (_ & _ & Hlen & Hshape).
  - apply demo_problems_consistent.
  - apply demo_problems_wf.
  - done.
  - by vm_compute.
  - split; [exact Hlen|exact Hshape].
Defined.

Lemma fresh_results_summary_witness :
  ∃ pass_at_k rest,
    report_pass_at_k "success" demo_estimate demo_mean
      (demo_results demo_flags demo_world) demo_world =
      (Ok (), add_trace demo_world
                (Print (PStr "Base") :: Print (PPassAtK pass_at_k) :: rest))
    ∧ is_Some (dict_get (pass_key 1) pass_at_k).
Proof.
  destruct (fresh_results_summary "cache" "success" demo_trusted_exec
              demo_untrusted_check demo_estimate demo_mean id demo_problems "hash"
              demo_load_solutions 8%Z pretty id demo_flags 2%Z
              demo_world (demo_results demo_flags demo_world)
              (demo_compute id demo_flags demo_world).2 demo_world)
    as (d & rest & Hrun & Hone & _).
  - apply demo_problems_consistent.
  - apply demo_problems_wf.
  - done.
  - done.
  - by vm_compute.
  - exists d, rest. split; [exact Hrun|]. rewrite Hone. eauto.
Defined.

Lemma fresh_results_counts_witness :
  Forall2 (λ c n, (0 ≤ c ≤ n)%Z)
    (base_corrects "success" (demo_results demo_flags demo_world))
    (totals (demo_results demo_flags demo_world)).
Proof.
  destruct (fresh_results_counts "cache" "success" demo_trusted_exec
              demo_untrusted_check demo_problems "hash" demo_load_solutions pretty
              id demo_flags 2%Z demo_world (demo_results demo_flags demo_world)
              (demo_compute id demo_flags demo_world).2) as [_ Hcounts].
  - apply demo_problems_consistent.
  - apply demo_problems_wf.
  - done.
  - by vm_compute.
  - exact Hcounts.
Defined.


Lemma compute_results_no_workers_witness :
  ∃ r w1,
    get_groundtruth "cache" demo_trusted_exec demo_problems "hash" demo_world
      = (r, w1)
    ∧ compute_results "cache" demo_trusted_exec demo_untrusted_check demo_problems
        "hash" demo_load_solutions pretty id demo_flags 0%Z demo_world =
        (match r with Ok _ => Raise ValueError | Raise e => Raise e end, w1).
Proof.
  apply (compute_results_no_workers "cache" demo_trusted_exec demo_untrusted_check
           demo_problems "hash" demo_load_solutions pretty id demo_flags 0%Z
           demo_world).
  lia.
Defined.

Lemma derive_result_path_jsonl_witness :
  derive_result_path demo_flags (fs demo_world) = Ok "samples_eval_results.json".
Proof.
  destruct (derive_result_path_jsonl "cache" "success" demo_trusted_exec
              demo_untrusted_check demo_estimate demo_mean id demo_problems "hash"
              demo_load_solutions 8%Z pretty demo_flags demo_world "samples")
    as [Hjsonl _]; [by vm_compute|].
  destruct (Hjsonl eq_refl) as [_ Hstem]. apply Hstem.
  intros i. by do 8 (destruct i as [|i]; [done|]).
Defined.

Lemma evaluate_humaneval_frame_witness :
  fs (demo_evaluate id demo_forced demo_stored).2 !! "samples.jsonl" =
    Some (File (Text "")).
Proof.
  rewrite (evaluate_humaneval_frame "cache" "success" demo_trusted_exec
             demo_untrusted_check demo_estimate demo_mean id demo_problems "hash"
             demo_load_solutions 8%Z pretty id demo_forced demo_stored
             (demo_evaluate id demo_forced demo_stored).1
             (demo_evaluate id demo_forced demo_stored).2
             "samples_eval_results.json" "samples.jsonl").
  - by vm_compute.
  - apply surjective_pairing.
  - by vm_compute.
  - intros H. by vm_compute in H.
  - done.
  - intros k H. apply (f_equal String.length) in H.
    rewrite bak_name_length in H. simpl in H. lia.
Defined.


(** ** The reader and the differ again *)

Definition demo_written : gmap string (node string) :=
  {[ "out.txt" := File (DataHandler.write_cases ["a"; "d"]) ]}.

Definition demo_json_load (text : string) : result DataHandler.json_value :=
  Raise JSONDecodeError.

Lemma write_cases_round_trip_witness :
  DataHandler.get_failed_cases_from_txt demo_written "out.txt" = Ok ["a"; "d"].
Proof.
  apply (DataHandler.write_cases_round_trip demo_json_load).
  - repeat constructor.
  - by vm_compute.
Defined.

Lemma compare_outputs_read_back_witness :
  ∃ fs',
    DataHandler.compare_two_failed_cases elements demo_args demo_files = (Ok (), fs')
    ∧ DataHandler.get_failed_cases_from_txt fs'
        (DataHandler.f1_not_f2_path demo_args) = Ok ["a"].
Proof.
  destruct (DataHandler.compare_outputs_read_back demo_json_load elements
              demo_args demo_files
              ("a" +:+ DataHandler.newline +:+ "b" +:+ DataHandler.newline
                 +:+ "c" +:+ DataHandler.newline)
              ("b" +:+ DataHandler.newline +:+ "c" +:+ DataHandler.newline
                 +:+ "d" +:+ DataHandler.newline))
    as (_ & fs' & Hrun & Hback & _); [done|by vm_compute..|].
  exists fs'. split; [exact Hrun|]. rewrite Hback. by vm_compute.
Defined.

(** The same identifiers in another order, one of them twice. *)
Definition demo_same : gmap string (node string) :=
  <[ "f2.txt" := File ("b" +:+ DataHandler.newline +:+ "a" +:+ DataHandler.newline
                         +:+ "a" +:+ DataHandler.newline) ]>
    {[ "f1.txt" := File ("a" +:+ DataHandler.newline +:+ "b" +:+ DataHandler.newline) ]}.

Lemma compare_equal_sets_witness :
  DataHandler.compare_two_failed_cases elements demo_args demo_same =
    (Ok (), <["out-f2-not-f1.txt" := File ""]>
              (<["out-f1-not-f2.txt" := File ""]> demo_same)).
Proof.
  apply (DataHandler.compare_equal_sets elements demo_args demo_same
           ("a" +:+ DataHandler.newline +:+ "b" +:+ DataHandler.newline)
           ("b" +:+ DataHandler.newline +:+ "a" +:+ DataHandler.newline
              +:+ "a" +:+ DataHandler.newline));
    [done|by vm_compute..|].
  apply (bool_decide_unpack _). by vm_compute.
Defined.


Lemma force_flag_without_result_file_witness :
  demo_evaluate id demo_forced demo_world = demo_evaluate id demo_flags demo_world.
Proof.
  apply (force_flag_without_result_file "cache" "success" demo_trusted_exec
           demo_untrusted_check demo_estimate demo_mean id demo_problems "hash"
           demo_load_solutions 8%Z pretty id demo_flags demo_forced demo_world
           "samples_eval_results.json"); [done..|by vm_compute|by vm_compute|].
  intros H. by vm_compute in H.
Defined.

End Examples.
